(** * voltwake/toolkit: the signal scoring engine and the backtest simulator

    A shallow embedding of [signal.js] (src/signal.js: indicator library,
    multi-factor scorer, weighted aggregation) and of [backtest.js]
    (src/unnamed/part_002, from line 726: indicator series, signal
    time-series generator, single-position trade simulator), followed by the
    properties the specification states about them.  Line numbers in the
    comments are those of these two files.

    Numbers.  A JavaScript number is an IEEE-754 binary64 value; prices and
    indicator values are therefore modelled by Rocq's primitive [float], whose
    operations are the IEEE ones ([<], [<=] and [===] are [ltb], [leb] and
    [eqb], all false on NaN).  Variables that only ever hold sums and products
    of small integer literals (factor scores, weights, bar indices, win/loss
    counters) are modelled in [Z] or [nat]: binary64 arithmetic is exact on
    them.  Where such a value enters a floating-point expression it is injected
    with [Z2float].

    Rendering.  Strings built for the console ([details], [reasons],
    [toFixed] renderings, ISO dates) are not part of the model; a record keeps
    the number or the index that the source renders. *)

From Stdlib Require Import Floats ZArith QArith Qround Lia.
From Stdlib Require Uint63.
From stdpp Require Import base option list sorting gmap strings.

Set Warnings "-inexact-float".

(** ** JavaScript numbers *)

Module JS.

(** An integer as a binary64 value (exact below 2^53). *)
Definition Z2float (z : Z) : float :=
  if (z <? 0)%Z then PrimFloat.opp (PrimFloat.of_uint63 (Uint63.of_Z (- z)))
  else PrimFloat.of_uint63 (Uint63.of_Z z).

Definition nat2float (n : nat) : float := Z2float (Z.of_nat n).

(** [Math.round]: the integer closest to [x], ties towards +infinity; NaN,
    zeros and infinities are returned as they are, and a result of zero keeps
    the sign of [x].  [x] is decomposed exactly as [(-1)^s * m * 2^e]. *)
Definition Math_round (x : float) : float :=
  match Prim2SF x with
  | S754_finite s m e =>
      if (0 <=? e)%Z then x
      else
        let den := (2 ^ (- e))%Z in
        let num := if s then Z.neg m else Z.pos m in
        let n := ((2 * num + den) / (2 * den))%Z in
        if (n =? 0)%Z then (if s then PrimFloat.neg_zero else PrimFloat.zero)
        else Z2float n
  | _ => x
  end.

(** Truthiness of a number: every number but [0], [-0] and NaN. *)
Definition truthy (x : float) : bool :=
  negb (PrimFloat.eqb x 0 || PrimFloat.is_nan x).

(** [x || d] on numbers. *)
Definition orElse (x d : float) : float := if truthy x then x else d.

(** [arr.reduce((a, b) => a + b, 0)]. *)
Definition sum (xs : list float) : float := fold_left PrimFloat.add xs 0%float.

(** [arr.reduce((a, b) => a + b)] on a non-empty array ([None]: the
    TypeError on an empty one). *)
Definition sum1 (xs : list float) : option float :=
  match xs with
  | [] => None
  | x :: rest => Some (fold_left PrimFloat.add rest x)
  end.

End JS.

(** ** Candles (both programs build the same object from an exchange row) *)

Record Candle := mkCandle {
  ts : Z;          (* open time, [parseInt] *)
  o : float;
  h : float;
  l : float;
  c : float;
  vol : float
}.

(** The objects both programs return for a MACD reading and for a Bollinger
    reading. *)
Record MACD := mkMACD { macd : float; signal : float; hist : float }.

Record Bollinger := mkBollinger {
  upper : float; middle : float; lower : float; percentB : float
}.

(** ** signal.js: indicator library, scorer and aggregation *)

Module Signal.
Import JS.
Local Open Scope float_scope.

(** [calcRSI(candles, period = 14)] (lines 116-144), Wilder's smoothing over
    close-to-close changes.  [None] is an absent ([undefined]) candle array. *)
Definition changesOf (candles : list Candle) : list float :=
  zip_with (fun prev cur => c cur - c prev) candles (tail candles).

Definition rsiSeed (acc : float * float) (change : float) : float * float :=
  let '(avgGain, avgLoss) := acc in
  if 0 <? change then (avgGain + change, avgLoss) else (avgGain, avgLoss - change).

Definition rsiSmooth (p : float) (acc : float * float) (change : float) : float * float :=
  let '(avgGain, avgLoss) := acc in
  if 0 <? change
  then ((avgGain * (p - 1) + change) / p, (avgLoss * (p - 1)) / p)
  else ((avgGain * (p - 1)) / p, (avgLoss * (p - 1) - change) / p).

Definition calcRSI (candles : option (list Candle)) (period : nat) : float :=
  match candles with
  | None => 50
  | Some candles =>
      if (length candles <? period + 1)%nat then 50
      else
        let changes := changesOf candles in
        let p := nat2float period in
        let '(avgGain, avgLoss) := fold_left rsiSeed (take period changes) (0, 0) in
        let avgGain := avgGain / p in
        let avgLoss := avgLoss / p in
        let '(avgGain, avgLoss) :=
          fold_left (rsiSmooth p) (drop period changes) (avgGain, avgLoss) in
        if avgLoss =? 0 then 100
        else let rs := avgGain / avgLoss in 100 - (100 / (1 + rs))
  end.

(** [calcEMA(values, period)] (lines 146-153): seed [values[0]], then
    [ema = values[i] * k + ema * (1 - k)].  On an empty array the source
    returns [undefined] ([None]). *)
Definition emaStep (k : float) (ema value : float) : float :=
  value * k + ema * (1 - k).

Definition calcEMA (values : list float) (period : float) : option float :=
  let k := 2 / (period + 1) in
  match values with
  | [] => None
  | v0 :: rest => Some (fold_left (emaStep k) rest v0)
  end.

(** [calcMACD(candles)] (lines 155-181). *)
Definition k12 : float := 2 / 13.
Definition k26 : float := 2 / 27.
Definition k9 : float := 2 / 10.

(** One pass of the loop [for (i = 1; i < closes.length; i++)]: the state is
    [(ema12, ema26, macdLine, i)]. *)
Definition macdStep (st : float * float * list float * nat) (close : float)
  : float * float * list float * nat :=
  let '(ema12, ema26, macdLine, i) := st in
  let ema12 := close * k12 + ema12 * (1 - k12) in
  let ema26 := close * k26 + ema26 * (1 - k26) in
  (ema12, ema26,
   if (25 <=? i)%nat then macdLine ++ [ema12 - ema26] else macdLine,
   S i).

(** The array [macdLine] the loop leaves behind. *)
Definition macdLineOf (closes : list float) : list float :=
  match closes with
  | [] => []
  | c0 :: rest => (fold_left macdStep rest (c0, c0, [], 1%nat)).1.2
  end.

Definition calcMACD (candles : option (list Candle)) : MACD :=
  match candles with
  | None => mkMACD 0 0 0
  | Some candles =>
      if (length candles <? 26)%nat then mkMACD 0 0 0
      else
        let closes := map c candles in
        let macdLine := macdLineOf closes in
        if (length macdLine <? 9)%nat
        then mkMACD (match last macdLine with Some m => orElse m 0 | None => 0 end) 0 0
        else
          match macdLine with
          | [] => mkMACD 0 0 0   (* not reached: nine entries or more *)
          | m0 :: rest =>
              let signal := fold_left (fun signal m => m * k9 + signal * (1 - k9)) rest m0 in
              let macd := default nan (last macdLine) in
              mkMACD macd signal (macd - signal)
          end
  end.

(** [calcBollinger(candles, period = 20)] (lines 183-197); [None] is the
    [null] result.
    [Math.pow(d, 2)] is the product [d * d]. *)

Definition calcBollinger (candles : option (list Candle)) (period : nat)
  : option Bollinger :=
  match candles with
  | None => None
  | Some candles =>
      if (length candles <? period)%nat then None
      else
        let p := nat2float period in
        let closes := map c (drop (length candles - period) candles) in
        let sma := sum closes / p in
        let variance :=
          fold_left (fun acc x => acc + (x - sma) * (x - sma)) closes 0 / p in
        let std := PrimFloat.sqrt variance in
        let currentPrice := default nan (c <$> last candles) in
        Some (mkBollinger (sma + 2 * std) sma (sma - 2 * std)
                ((currentPrice - (sma - 2 * std)) / (4 * std)))
  end.

(** *** The scoring engine

    The fields of [data] that [scoreSignals] reads; a field that was never
    assigned is [None]. *)
Record Data := mkData {
  fundingRate : option float;
  fundingHistory : option (list float);
  longShortCurrent : option float;
  longShortPrev : option float;
  candles : option (list Candle);
  fearGreed : option float;
  liqLong : option float;
  liqShort : option float
}.

(** The threshold chains of [scoreSignals] (lines 201-327), one per factor,
    in the order the source tests them. *)
Definition fundingBand (fr : float) : Z :=
  (if fr <? -0.001 then 30%Z
  else if fr <? -0.0003 then 15%Z
  else if fr <? 0.0005 then 0%Z
  else if fr <? 0.001 then (-15)%Z
  else (-30)%Z)%float.

Definition fundingTrendBand (recentAvg olderAvg : float) : Z :=
  (if (recentAvg <? olderAvg) && (recentAvg <? 0) then 20%Z
  else if recentAvg <? olderAvg then 10%Z
  else if (olderAvg <? recentAvg) && (0.0008 <? recentAvg) then (-20)%Z
  else if olderAvg <? recentAvg then (-10)%Z
  else 0%Z)%float.

Definition longShortBand (ls : float) : Z :=
  (if 3.5 <? ls then (-25)%Z
  else if 2.8 <? ls then (-10)%Z
  else if ls <? 1.2 then 25%Z
  else if ls <? 1.8 then 10%Z
  else 0%Z)%float.

(** The adjustment for the change against the ratio eight periods earlier. *)
Definition longShortTrend (change : float) : Z :=
  (if 0.3 <? PrimFloat.abs change then (if 0 <? change then (-5)%Z else 5%Z) else 0%Z)%float.

Definition fearGreedBand (fg : float) : Z :=
  (if fg <=? 10 then 30%Z
  else if fg <=? 25 then 15%Z
  else if fg <=? 45 then 5%Z
  else if fg <=? 55 then 0%Z
  else if fg <=? 75 then (-5)%Z
  else if fg <=? 90 then (-15)%Z
  else (-30)%Z)%float.

Definition rsiBand (rsi : float) : Z :=
  (if rsi <? 20 then 30%Z
  else if rsi <? 30 then 15%Z
  else if rsi <? 45 then 5%Z
  else if 80 <? rsi then (-30)%Z
  else if 70 <? rsi then (-15)%Z
  else if 55 <? rsi then (-5)%Z
  else 0%Z)%float.

Definition macdBand (m : MACD) : Z :=
  (if (0 <? hist m) && (0 <? macd m) then 15%Z
  else if 0 <? hist m then 10%Z
  else if (hist m <? 0) && (macd m <? 0) then (-15)%Z
  else if hist m <? 0 then (-10)%Z
  else 0%Z)%float.

Definition bollingerBand (pB : float) : Z :=
  (if pB <? 0 then 20%Z
  else if pB <? 0.2 then 10%Z
  else if 1 <? pB then (-20)%Z
  else if 0.8 <? pB then (-10)%Z
  else 0%Z)%float.

Definition liquidationBand (longPct : float) : Z :=
  (if 0.8 <? longPct then 15%Z
  else if 0.6 <? longPct then 5%Z
  else if longPct <? 0.2 then (-15)%Z
  else if longPct <? 0.4 then (-5)%Z
  else 0%Z)%float.

(** [data.candles?.length >= n]. *)
Definition candlesAtLeast (n : nat) (data : Data) : bool :=
  match candles data with
  | Some cs => (n <=? length cs)%nat
  | None => false
  end.

(** The eight blocks of [scoreSignals], each adding at most one key. *)
Definition scoreFunding (data : Data) (scores : gmap string Z) : gmap string Z :=
  match fundingRate data with
  | Some fr => <["funding" := fundingBand fr]> scores
  | None => scores
  end.

Definition scoreFundingTrend (data : Data) (scores : gmap string Z) : gmap string Z :=
  match fundingHistory data with
  | Some history =>
      if (3 <=? length history)%nat then
        let recent := take 3 history in
        let older := drop 3 history in
        let recentAvg := sum recent / nat2float (length recent) in
        let olderAvg :=
          if (0 <? length older)%nat then sum older / nat2float (length older)
          else recentAvg in
        <["fundingTrend" := fundingTrendBand recentAvg olderAvg]> scores
      else scores
  | None => scores
  end.

Definition scoreLongShort (data : Data) (scores : gmap string Z) : gmap string Z :=
  match longShortCurrent data with
  | Some ls =>
      if truthy ls then
        let score := longShortBand ls in
        match longShortPrev data with
        | Some prev =>
            if truthy prev
            then <["longShort" := (score + longShortTrend (ls - prev))%Z]> scores
            else <["longShort" := score]> scores
        | None => <["longShort" := score]> scores
        end
      else scores
  | None => scores
  end.

Definition scoreFearGreed (data : Data) (scores : gmap string Z) : gmap string Z :=
  match fearGreed data with
  | Some fg => <["fearGreed" := fearGreedBand fg]> scores
  | None => scores
  end.

Definition scoreRsi (data : Data) (scores : gmap string Z) : gmap string Z :=
  if candlesAtLeast 15 data
  then <["rsi" := rsiBand (calcRSI (candles data) 14)]> scores
  else scores.

Definition scoreMacd (data : Data) (scores : gmap string Z) : gmap string Z :=
  if candlesAtLeast 30 data
  then <["macd" := macdBand (calcMACD (candles data))]> scores
  else scores.

Definition scoreBollinger (data : Data) (scores : gmap string Z) : gmap string Z :=
  if candlesAtLeast 20 data then
    match calcBollinger (candles data) 20 with
    | Some bb => <["bollinger" := bollingerBand (percentB bb)]> scores
    | None => scores
    end
  else scores.

Definition scoreLiquidation (data : Data) (scores : gmap string Z) : gmap string Z :=
  match liqLong data, liqShort data with
  | Some liqL, Some liqS =>
      let total := liqL + liqS in
      if 0 <? total
      then <["liquidation" := liquidationBand (liqL / total)]> scores
      else scores
  | _, _ => scores
  end.

(** [scoreSignals(data).scores]. *)
Definition scoreSignals (data : Data) : gmap string Z :=
  scoreLiquidation data
    (scoreBollinger data
      (scoreMacd data
        (scoreRsi data
          (scoreFearGreed data
            (scoreLongShort data
              (scoreFundingTrend data
                (scoreFunding data ∅))))))).

(** *** Aggregation (lines 331-355) *)

Definition weights : list (string * Z) :=
  [ ("funding", 15%Z); ("fundingTrend", 10%Z); ("longShort", 15%Z);
    ("fearGreed", 15%Z); ("rsi", 15%Z); ("macd", 10%Z);
    ("bollinger", 10%Z); ("liquidation", 10%Z) ].

(** The body of [for (const [key, weight] of Object.entries(weights))] on
    [(totalScore, totalWeight)]. *)
Definition accumulate (scores : gmap string Z) (acc : Z * Z) (kw : string * Z) : Z * Z :=
  match scores !! kw.1 with
  | Some s => (acc.1 + s * kw.2, acc.2 + kw.2)%Z
  | None => acc
  end.

Definition totals (scores : gmap string Z) : Z * Z :=
  fold_left (accumulate scores) weights (0%Z, 0%Z).

Definition aggregate (scores : gmap string Z) : float :=
  let '(totalScore, totalWeight) := totals scores in
  if (totalWeight =? 0)%Z then 0
  else Math_round (Z2float totalScore / Z2float totalWeight * 100) / 100.

End Signal.

(** ** backtest.js: indicator series, signal generator and trade simulator *)

Module Backtest.
Import JS.
Local Open Scope float_scope.

(** [closes.slice(a, b)]. *)
Definition slice {A} (a b : nat) (xs : list A) : list A := take (b - a) (drop a xs).

(** *** Indicator series *)

Definition rsiValue (avgGain avgLoss : float) : float :=
  if avgLoss =? 0 then 100 else 100 - 100 / (1 + avgGain / avgLoss).

Definition rsiSeed (acc : float * float) (change : float) : float * float :=
  let '(avgGain, avgLoss) := acc in
  if 0 <? change then (avgGain + change, avgLoss) else (avgGain, avgLoss - change).

(** The body of the second loop of [calcRSI] on
    [(avgGain, avgLoss, rsiSeries)]. *)
Definition rsiPush (p : float) (st : float * float * list (option float)) (change : float)
  : float * float * list (option float) :=
  let '(avgGain, avgLoss, rsiSeries) := st in
  let '(avgGain, avgLoss) :=
    if 0 <? change
    then ((avgGain * (p - 1) + change) / p, (avgLoss * (p - 1)) / p)
    else ((avgGain * (p - 1)) / p, (avgLoss * (p - 1) - change) / p) in
  (avgGain, avgLoss, rsiSeries ++ [Some (rsiValue avgGain avgLoss)]).

(** [calcRSI(closes, period = 14)] (lines 787-817): [null] ([None]) on fewer
    than [period + 1] closes, else an array of [null] ([None]) and numbers. *)
Definition calcRSI (closes : list float) (period : nat) : option (list (option float)) :=
  if (length closes <? period + 1)%nat then None
  else
    let changes := zip_with (fun prev cur => cur - prev) closes (tail closes) in
    let p := nat2float period in
    let '(avgGain, avgLoss) := fold_left rsiSeed (take period changes) (0, 0) in
    let avgGain := avgGain / p in
    let avgLoss := avgLoss / p in
    let rsiSeries := replicate (period + 1) None ++ [Some (rsiValue avgGain avgLoss)] in
    Some (fold_left (rsiPush p) (drop period changes) (avgGain, avgLoss, rsiSeries)).2.

(** The entries [calcEMASeries] pushes after the seed [prev]. *)
Fixpoint emaFrom (k : float) (prev : float) (values : list float) : list float :=
  match values with
  | [] => []
  | v :: rest => let e := v * k + prev * (1 - k) in e :: emaFrom k e rest
  end.

(** [calcEMASeries(values, period)] (lines 819-826).  On an empty array the
    source yields the one-element array [[undefined]], which later arithmetic
    reads as NaN. *)
Definition calcEMASeries (values : list float) (period : float) : list float :=
  let k := 2 / (period + 1) in
  match values with
  | [] => [nan]
  | v0 :: rest => v0 :: emaFrom k v0 rest
  end.

(** [calcMACDSeries(closes)] (lines 828-838). *)
Definition calcMACDSeries (closes : list float) : list MACD :=
  let ema12 := calcEMASeries closes 12 in
  let ema26 := calcEMASeries closes 26 in
  let macdLine := zip_with (fun v w => v - w) ema12 ema26 in
  let signal := calcEMASeries macdLine 9 in
  zip_with (fun v s => mkMACD v s (v - s)) macdLine signal.

(** The standard deviation [calcBollingerSeries] computes for one window;
    [d ** 2] is the product [d * d]. *)
Definition windowMean (p : float) (window : list float) : float := sum window / p.

Definition windowStd (p : float) (window : list float) : float :=
  let sma := windowMean p window in
  PrimFloat.sqrt (fold_left (fun s x => s + (x - sma) * (x - sma)) window 0 / p).

(** The object pushed for index [i], whose close is [ci]. *)
Definition bollingerAt (period : nat) (closes : list float) (i : nat) (ci : float)
  : option Bollinger :=
  if (i <? period - 1)%nat then None
  else
    let p := nat2float period in
    let window := slice (i + 1 - period) (i + 1) closes in
    let sma := windowMean p window in
    let std := windowStd p window in
    Some (mkBollinger (sma + 2 * std) sma (sma - 2 * std)
            (if 0 <? std then (ci - (sma - 2 * std)) / (4 * std) else 0.5)).

(** [calcBollingerSeries(closes, period = 20)] (lines 840-855): [null]
    ([None]) for the first [period - 1] indices. *)
Definition calcBollingerSeries (closes : list float) (period : nat)
  : list (option Bollinger) :=
  imap (bollingerAt period closes) closes.

(** *** Signal generation (lines 859-929) *)

Module Sig.
Record t := mk { idx : nat; ts : Z; price : float; score : Z }.
End Sig.

(** [rsiSeries[i]] is [undefined] ([None]), [null] ([Some None]) or a number;
    [undefined] passes [rsi !== null] and then fails every comparison. *)
Definition rsiPart (rsi : option (option float)) : Z :=
  match rsi with
  | Some (Some rsi) =>
      (if rsi <? 20 then 30%Z
       else if rsi <? 30 then 15%Z
       else if rsi <? 45 then 5%Z
       else if 80 <? rsi then (-30)%Z
       else if 70 <? rsi then (-15)%Z
       else if 55 <? rsi then (-5)%Z
       else 0%Z)%float
  | _ => 0%Z
  end.

Definition macdPart (m : MACD) : Z :=
  (if (0 <? hist m) && (0 <? macd m) then 15%Z
   else if 0 <? hist m then 10%Z
   else if (hist m <? 0) && (macd m <? 0) then (-15)%Z
   else if hist m <? 0 then (-10)%Z
   else 0%Z)%float.

(** Golden and death cross between adjacent bars (two independent tests). *)
Definition crossPart (prevMacd m : MACD) : Z :=
  ((if ((hist prevMacd <=? 0) && (0 <? hist m))%float then 10 else 0)
   + (if ((0 <=? hist prevMacd) && (hist m <? 0))%float then -10 else 0))%Z.

Definition bbPart (bb : option (option Bollinger)) : Z :=
  match bb with
  | Some (Some bb) =>
      (if percentB bb <? 0 then 20%Z
       else if percentB bb <? 0.15 then 10%Z
       else if 1 <? percentB bb then (-20)%Z
       else if 0.85 <? percentB bb then (-10)%Z
       else 0%Z)%float
  | _ => 0%Z
  end.

(** The 20/50 moving-average filter; [None] is the TypeError of [reduce] on
    an empty slice.  A missing [closes[i]] is [undefined], which fails both
    comparisons like NaN does. *)
Definition trendPart (closes : list float) (i : nat) : option Z :=
  if (50 <=? i)%nat then
    s20 ← sum1 (slice (i - 19) (i + 1) closes);
    s50 ← sum1 (slice (i - 49) (i + 1) closes);
    let ci := default nan (closes !! i) in
    let ema20 := s20 / 20 in
    let ema50 := s50 / 50 in
    Some (if (ema20 <? ci) && (ema50 <? ema20) then 10%Z
          else if (ci <? ema20) && (ema20 <? ema50) then (-10)%Z
          else 0%Z)
  else Some 0%Z.

(** The variable [score] at the end of the loop body for index [i], before
    doubling; [None] is a TypeError on a missing array element. *)
Definition rawScore (closes : list float) (rsiSeries : list (option float))
    (macdSeries : list MACD) (bbSeries : list (option Bollinger)) (i : nat) : option Z :=
  m ← macdSeries !! i;
  cross ← (if (0 <? i)%nat
           then prevMacd ← macdSeries !! (i - 1)%nat; Some (crossPart prevMacd m)
           else Some 0%Z);
  trend ← trendPart closes i;
  Some (rsiPart (rsiSeries !! i) + macdPart m + cross + bbPart (bbSeries !! i) + trend)%Z.

(** [Math.max(-100, Math.min(100, score * 2))]. *)
Definition normalize (score : Z) : Z := Z.max (-100) (Z.min 100 (score * 2)).

Definition signalAt (candles : list Candle) (closes : list float)
    (rsiSeries : list (option float)) (macdSeries : list MACD)
    (bbSeries : list (option Bollinger)) (i : nat) : option Sig.t :=
  score ← rawScore closes rsiSeries macdSeries bbSeries i;
  candle ← candles !! i;
  Some (Sig.mk i (ts candle) (c candle) (normalize score)).

(** [generateSignals(candles)]; [None] is an uncaught TypeError. *)
Definition generateSignals (candles : list Candle) : option (list Sig.t) :=
  let closes := map c candles in
  let rsiSeries := calcRSI closes 14 in
  let macdSeries := calcMACDSeries closes in
  let bbSeries := calcBollingerSeries closes 20 in
  mapM (fun i => rsiSeries ← rsiSeries;
                 signalAt candles closes rsiSeries macdSeries bbSeries i)
       (seq 30 (length candles - 30)).

(** *** The trade simulator (lines 933-1060) *)

Inductive Side := long | short.

(** The four exit reasons (the strings the source stores for take-profit,
    stop-loss, signal reversal and end of data). *)
Inductive Reason := take_profit | stop_loss | signal_reversal | end_of_data.

Module Pos.
Record t := mk { side : Side; entry : float; entryIdx : nat; score : Z }.
End Pos.

(** A ledger entry.  [pnl] is the number the source renders with
    [toFixed(2)]; [entryIdx] and [exitIdx] are the indices of the candles
    whose open times it renders as [entryTime] and [exitTime] (the entry bar
    and the bar whose price is the exit price). *)
Module Trade.
Record t := mk {
  side : Side; entry : float; exit : float; pnl : float; reason : Reason;
  entryIdx : nat; exitIdx : nat; holdBars : Z
}.
End Trade.

Record State := mkState {
  trades : list Trade.t;
  position : option Pos.t;
  totalPnl : float;
  wins : nat;
  losses : nat;
  maxDrawdown : float;
  peak : float;
  equity : float
}.

Definition initState : State := mkState [] None 0 0 0 0 0 0.

Definition ENTRY_THRESHOLD : Z := 20.
Definition EXIT_THRESHOLD : Z := 5.
Definition STOP_LOSS_PCT : float := 0.03.
Definition TAKE_PROFIT_PCT : float := 0.06.
Definition LOOKFORWARD : nat := 1.

Definition pnlPctOf (p : Pos.t) (price : float) : float :=
  match Pos.side p with
  | long => (price - Pos.entry p) / Pos.entry p
  | short => (Pos.entry p - price) / Pos.entry p
  end.

(** The bookkeeping both in-loop exits perform: total, equity, peak,
    drawdown and the win/loss counters. *)
Definition settle (st : State) (pnl : float) : State :=
  let totalPnl := totalPnl st + pnl in
  let equity := equity st + pnl in
  let peak := if peak st <? equity then equity else peak st in
  let dd := peak - equity in
  let maxDrawdown := if maxDrawdown st <? dd then dd else maxDrawdown st in
  mkState (trades st) (position st) totalPnl
    (if 0 <? pnl then S (wins st) else wins st)
    (if 0 <? pnl then losses st else S (losses st))
    maxDrawdown peak equity.

(** Closing [p] inside the loop at [execPrice], the open of candle
    [sigIdx + LOOKFORWARD]. *)
Definition closeAt (st : State) (p : Pos.t) (execPrice pnlPct : float)
    (why : Reason) (sigIdx : nat) : State :=
  let pnl := pnlPct * 100 in
  let st := settle st pnl in
  mkState
    (trades st ++ [Trade.mk (Pos.side p) (Pos.entry p) execPrice pnl why
                     (Pos.entryIdx p) (sigIdx + LOOKFORWARD)
                     (Z.of_nat sigIdx - Z.of_nat (Pos.entryIdx p))])
    None (totalPnl st) (wins st) (losses st) (maxDrawdown st) (peak st) (equity st).

Definition reversed (p : Pos.t) (score : Z) : bool :=
  match Pos.side p with
  | long => (score <? - EXIT_THRESHOLD)%Z
  | short => (EXIT_THRESHOLD <? score)%Z
  end.

(** The exit checks of one bar.  The boolean is [true] when the source
    leaves the iteration with [continue]. *)
Definition exitCheck (st : State) (sig : Sig.t) (execPrice : float) : State * bool :=
  match position st with
  | Some p =>
      let pnlPct := pnlPctOf p execPrice in
      if (pnlPct <=? - STOP_LOSS_PCT) || (TAKE_PROFIT_PCT <=? pnlPct) then
        (closeAt st p execPrice pnlPct
           (if TAKE_PROFIT_PCT <=? pnlPct then take_profit else stop_loss)
           (Sig.idx sig), true)
      else if reversed p (Sig.score sig) then
        (closeAt st p execPrice pnlPct signal_reversal (Sig.idx sig), false)
      else (st, false)
  | None => (st, false)
  end.

(** The entry check of one bar. *)
Definition entryCheck (st : State) (sig : Sig.t) (execPrice : float) : State :=
  match position st with
  | Some _ => st
  | None =>
      let enter side :=
        mkState (trades st)
          (Some (Pos.mk side execPrice (Sig.idx sig + LOOKFORWARD) (Sig.score sig)))
          (totalPnl st) (wins st) (losses st) (maxDrawdown st) (peak st) (equity st) in
      if (ENTRY_THRESHOLD <=? Sig.score sig)%Z then enter long
      else if (Sig.score sig <=? - ENTRY_THRESHOLD)%Z then enter short
      else st
  end.

(** One iteration of the loop over [signals]. *)
Definition step (candles : list Candle) (st : State) (sig : Sig.t) : State :=
  match candles !! (Sig.idx sig + LOOKFORWARD)%nat with
  | None => st
  | Some nextCandle =>
      let execPrice := o nextCandle in
      let '(st, skip) := exitCheck st sig execPrice in
      if skip then st else entryCheck st sig execPrice
  end.

(** The loop [for (i = 0; i < signals.length - LOOKFORWARD; i++)]. *)
Definition runLoop (signals : list Sig.t) (candles : list Candle) : State :=
  fold_left (step candles) (take (length signals - LOOKFORWARD) signals) initState.

(** The forced close after the loop.  It reads [candles[candles.length - 1]];
    with no candle at all there is no bar at which a position could have been
    entered. *)
Definition forceClose (candles : list Candle) (st : State) : State :=
  match position st, last candles with
  | Some p, Some lastCandle =>
      let lastPrice := c lastCandle in
      let pnl := pnlPctOf p lastPrice * 100 in
      mkState
        (trades st ++ [Trade.mk (Pos.side p) (Pos.entry p) lastPrice pnl end_of_data
                         (Pos.entryIdx p) (length candles - 1)
                         (Z.of_nat (length candles) - 1 - Z.of_nat (Pos.entryIdx p))])
        (position st) (totalPnl st + pnl)
        (if 0 <? pnl then S (wins st) else wins st)
        (if 0 <? pnl then losses st else S (losses st))
        (maxDrawdown st) (peak st) (equity st)
  | _, _ => st
  end.

(** The numbers behind [stats]; the source renders them, and the averages
    derived from them, as strings. *)
Module Stats.
Record t := mk {
  totalTrades : nat; wins : nat; losses : nat; totalPnl : float; maxDrawdown : float
}.
End Stats.

Module Result.
Record t := mk { trades : list Trade.t; stats : Stats.t }.
End Result.

(** [runBacktest(signals, candles)]: ledger and statistics of a call that
    returns.  Recording a trade also renders dates, which can throw; that is
    [runBacktestOrThrow] below. *)
Definition runBacktest (signals : list Sig.t) (candles : list Candle) : Result.t :=
  let st := forceClose candles (runLoop signals candles) in
  Result.mk (trades st)
    (Stats.mk (wins st + losses st) (wins st) (losses st) (totalPnl st) (maxDrawdown st)).

(** *** Date rendering

    [new Date(ts).toISOString()] throws a RangeError unless [ts] is a valid
    time value: at most 8.64e15 milliseconds from the epoch, either way. *)
Definition validTime (ts : Z) : bool := (Z.abs ts <=? 8640000000000000)%Z.

(** [new Date(candles[i].ts).toISOString()] returns a string: the candle is
    there and its time is valid. *)
Definition rendersTime (candles : list Candle) (i : nat) : bool :=
  match candles !! i with
  | Some bar => validTime (ts bar)
  | None => false
  end.

(** The dates rendered when a trade is recorded (lines 975-976, 1000-1001
    and 1033): that of the entry candle and, for a trade closed inside the
    loop, that of the exit candle [nextCandle]; the end-of-data trade stores
    ['NOW'] as its exit time. *)
Definition rendersDates (candles : list Candle) (t : Trade.t) : bool :=
  rendersTime candles (Trade.entryIdx t)
  && match Trade.reason t with
     | end_of_data => true
     | _ => rendersTime candles (Trade.exitIdx t)
     end.

(** [runBacktest] with the error its date rendering can raise: [None] is an
    error thrown while a trade is recorded, which ends the call; a call that
    does not throw returns what [runBacktest] computes. *)
Definition runBacktestOrThrow (signals : list Sig.t) (candles : list Candle)
  : option Result.t :=
  let result := runBacktest signals candles in
  if forallb (rendersDates candles) (Result.trades result) then Some result else None.

(** *** The entry point (lines 1064-1108), on the candles the exchange
    returned *)

Inductive Outcome :=
  | InsufficientData            (* the warning is logged, then [return] *)
  | Report (signals : list Sig.t) (result : Result.t)
  | Thrown.                     (* an error reaches [main().catch] *)

(** After the guard, [main] renders the dates of the first and of the last
    candle (lines 1086-1087), generates the signals and runs the
    simulation. *)
Definition main (candles : list Candle) : Outcome :=
  if (length candles <? 50)%nat then InsufficientData
  else if rendersTime candles 0 && rendersTime candles (length candles - 1) then
    match generateSignals candles with
    | Some signals =>
        match runBacktestOrThrow signals candles with
        | Some result => Report signals result
        | None => Thrown
        end
    | None => Thrown
    end
  else Thrown.

End Backtest.

(** ** Notions the specification uses about the scorer *)

Module SignalSpec.
Import JS Signal.

(** *** The MACD line

    EMA(12) minus EMA(26) of the closes up to a bar, for every bar from the
    26th on ([None] where an EMA is undefined). *)
Definition macdAt (closes : list float) (n : nat) : option float :=
  e12 ← calcEMA (take n closes) 12;
  e26 ← calcEMA (take n closes) 26;
  Some (e12 - e26)%float.

Definition macdLineSpec (closes : list float) : list (option float) :=
  map (macdAt closes) (seq 26 (length closes - 25)).

(** *** The weighted mean *)

(** The [(score, weight)] pairs of the factors actually present. *)
Definition presentIn (table : list (string * Z)) (scores : gmap string Z) : list (Z * Z) :=
  omap (λ kw, (λ s, (s, kw.2)) <$> scores !! kw.1) table.

Definition present (scores : gmap string Z) : list (Z * Z) := presentIn weights scores.

Definition sumZ (xs : list Z) : Z := foldr Z.add 0%Z xs.

(** [Σ score_i·weight_i / Σ weight_i], exactly. *)
Definition weightedMean (scores : gmap string Z) : Q :=
  inject_Z (sumZ (map (λ sw, sw.1 * sw.2)%Z (present scores)))
  / inject_Z (sumZ (map snd (present scores))).

(** A rational rounded to two decimal places, as a number of hundredths; a
    tie goes up, as [Math.round] breaks it. *)
Definition roundHundredths (q : Q) : Z := Qfloor (q * 100 + (1 # 2)).

(** The aggregate the specification describes; [n / 100] is the binary64
    number nearest to that decimal. *)
Definition roundedMean (scores : gmap string Z) : float :=
  match present scores with
  | [] => 0%float
  | _ => (Z2float (roundHundredths (weightedMean scores)) / 100)%float
  end.

(** The two computations on a total score [S] and a total weight [W]. *)
Definition meanCode (S W : Z) : float :=
  (Math_round (Z2float S / Z2float W * 100) / 100)%float.

Definition meanSpec (S W : Z) : float :=
  (Z2float (roundHundredths (inject_Z S / inject_Z W)) / 100)%float.

Definition rangeZ (lo : Z) (n : nat) : list Z := map (λ i, lo + Z.of_nat i)%Z (seq 0 n).

(** Both computations agree on every total the scorer can reach with total
    weight [5 * w]: totals are multiples of 5 within 30 times the weight. *)
Definition agreeOn (w : Z) : bool :=
  forallb (λ s, PrimFloat.Leibniz.eqb (meanCode (5 * s) (5 * w)) (meanSpec (5 * s) (5 * w)))
          (rangeZ (-30 * w) (Z.to_nat (60 * w + 1))).

(** One factor present, with weight [w]: the aggregate is its score. *)
Definition identityOn (w : Z) : bool :=
  forallb (λ s, PrimFloat.Leibniz.eqb (meanCode (s * w + 0) (w + 0)) (Z2float s))
          (rangeZ (-30) 61).

(** What a factor score may be: a key of the weight table and a value in
    the documented range. *)
Definition factorScore (key : string) (s : Z) : Prop :=
  key ∈ weights.*1 ∧ (-30 <= s <= 30)%Z.

(** *** The bands of section 4.2

    The ordered table the specification describes: the first bound that
    holds gives the score. *)
Inductive Bound := below (t : float) | atMost (t : float) | above (t : float).

Definition threshold (b : Bound) : float :=
  match b with below t | atMost t | above t => t end.

Definition holds (b : Bound) (x : float) : bool :=
  match b with
  | below t => (x <? t)%float
  | atMost t => (x <=? t)%float
  | above t => (t <? x)%float
  end.

Record Table := mkTable { bands : list (Bound * Z); otherwise : Z }.

Fixpoint firstMatch (bs : list (Bound * Z)) (other : Z) (x : float) : Z :=
  match bs with
  | [] => other
  | (b, score) :: rest => if holds b x then score else firstMatch rest other x
  end.

Definition documented (t : Table) (x : float) : Z := firstMatch (bands t) (otherwise t) x.

Definition fundingTable : Table :=
  mkTable [(below (-0.001), 30%Z); (below (-0.0003), 15%Z); (below 0.0005, 0%Z);
           (below 0.001, (-15)%Z)] (-30).

Definition longShortTable : Table :=
  mkTable [(above 3.5, (-25)%Z); (above 2.8, (-10)%Z); (below 1.2, 25%Z);
           (below 1.8, 10%Z)] 0.

Definition fearGreedTable : Table :=
  mkTable [(atMost 10, 30%Z); (atMost 25, 15%Z); (atMost 45, 5%Z); (atMost 55, 0%Z);
           (atMost 75, (-5)%Z); (atMost 90, (-15)%Z)] (-30).

Definition rsiTable : Table :=
  mkTable [(below 20, 30%Z); (below 30, 15%Z); (below 45, 5%Z); (above 80, (-30)%Z);
           (above 70, (-15)%Z); (above 55, (-5)%Z)] 0.

Definition bollingerTable : Table :=
  mkTable [(below 0, 20%Z); (below 0.2, 10%Z); (above 1, (-20)%Z);
           (above 0.8, (-10)%Z)] 0.

Definition liquidationTable : Table :=
  mkTable [(above 0.8, 15%Z); (above 0.6, 5%Z); (below 0.2, (-15)%Z);
           (below 0.4, (-5)%Z)] 0.

(** The factors that score a single number, each with its table. *)
Definition singleInputFactors : list ((float → Z) * Table) :=
  [ (fundingBand, fundingTable); (longShortBand, longShortTable);
    (fearGreedBand, fearGreedTable); (rsiBand, rsiTable);
    (bollingerBand, bollingerTable); (liquidationBand, liquidationTable) ].

(** A factor scores every threshold of its table as the table documents. *)
Definition boundariesAsDocumented (factor : (float → Z) * Table) : Prop :=
  Forall (λ band, factor.1 (threshold band.1) = documented factor.2 (threshold band.1))
         (bands factor.2).





(** *** Sample inputs *)

(** A snapshot with nothing but a funding rate. *)
Definition fundingAt (fr : float) : Data :=
  mkData (Some fr) None None None None None None None.

(** [n] candles closing at 1, 2, ..., [n]. *)
Definition rising (n : nat) : list Candle :=
  map (λ i, let p := nat2float i in mkCandle (Z.of_nat i) p p p p 1) (seq 1 n).

(** Fifteen candles whose RSI(14) is exactly 20. *)
Definition rsi20 : list Candle :=
  map (λ p, mkCandle 0 p p p p 1) ([100; 114] ++ replicate 13 58)%float.

(** Funding, long/short ratio and MACD present: total 325 over weight 40. *)
Definition threeFactors : gmap string Z :=
  {[ "funding" := 15%Z; "longShort" := 0%Z; "macd" := 10%Z ]}.

End SignalSpec.

(** ** Notions the specification uses about the simulator *)

Module BacktestSpec.
Import JS Backtest.
Local Open Scope float_scope.

(** The state of the loop after its first [k] iterations. *)
Definition barState (signals : list Sig.t) (candles : list Candle) (k : nat) : State :=
  fold_left (step candles) (take k (take (length signals - LOOKFORWARD) signals)) initState.

(** The signal the loop handles in iteration [k], if there is one. *)
Definition barSignal (signals : list Sig.t) (k : nat) : option Sig.t :=
  take (length signals - LOOKFORWARD) signals !! k.

(** What a bar did, read off the states before and after it: it closed a
    position when the ledger grew by a trade, and it opened one when the
    state afterwards holds a position that was not there before. *)
Definition closedOn (st st' : State) (t : Trade.t) : Prop :=
  trades st' = trades st ++ [t].

Definition openedOn (st st' : State) (p : Pos.t) : Prop :=
  position st' = Some p ∧ position st ≠ Some p.

Definition opposite (s : Side) : Side :=
  match s with long => short | short => long end.

(** Everything one bar can do: nothing; enter from flat; close the open
    position; or close it on a reversal and enter the opposite side at the
    same price. *)
Inductive BarEvent (sig : Sig.t) (st st' : State) : Prop :=
  | bar_idle : st' = st → BarEvent sig st st'
  | bar_enter q :
      position st = None → trades st' = trades st → position st' = Some q →
      Pos.entryIdx q = (Sig.idx sig + LOOKFORWARD)%nat →
      BarEvent sig st st'
  | bar_exit p t :
      position st = Some p → trades st' = trades st ++ [t] → position st' = None →
      Trade.entryIdx t = Pos.entryIdx p →
      Trade.exitIdx t = (Sig.idx sig + LOOKFORWARD)%nat →
      Trade.reason t ≠ end_of_data →
      BarEvent sig st st'
  | bar_reverse p t q :
      position st = Some p → trades st' = trades st ++ [t] → position st' = Some q →
      Trade.entryIdx t = Pos.entryIdx p →
      Trade.exitIdx t = (Sig.idx sig + LOOKFORWARD)%nat →
      Trade.reason t = signal_reversal →
      Pos.side q = opposite (Trade.side t) → Pos.entry q = Trade.exit t →
      Pos.entryIdx q = Trade.exitIdx t →
      BarEvent sig st st'.

(** Signals as [generateSignals] numbers them: strictly increasing [idx]. *)
Definition ascending (signals : list Sig.t) : Prop :=
  StronglySorted lt (Sig.idx <$> signals).

(** Holding periods that follow one another: a later trade is entered no
    earlier than an earlier trade was exited. *)
Definition precedes (t1 t2 : Trade.t) : Prop :=
  (Trade.exitIdx t1 <= Trade.entryIdx t2)%nat.

Definition sequential (ledger : list Trade.t) : Prop := StronglySorted precedes ledger.

(** The loop invariant behind the ledger's ordering; [b] bounds the bars
    handled so far. *)
Record LedgerInv (candles : list Candle) (b : nat) (st : State) : Prop := {
  inv_trades : ∀ t, t ∈ trades st →
    (Trade.entryIdx t < Trade.exitIdx t)%nat ∧ (Trade.exitIdx t <= b)%nat
    ∧ (Trade.exitIdx t < length candles)%nat ∧ Trade.reason t ≠ end_of_data;
  inv_sequential : sequential (trades st);
  inv_position : ∀ p, position st = Some p →
    (Pos.entryIdx p <= b)%nat ∧ (Pos.entryIdx p < length candles)%nat
    ∧ ∀ t, t ∈ trades st → (Trade.exitIdx t <= Pos.entryIdx p)%nat
}.

(** The largest peak-to-current drop of cumulative equity along a sequence of
    trade results, equity and peak starting at 0. *)
Definition fmax (a b : float) : float := if a <? b then b else a.

Fixpoint drawdownFrom (equity peak worst : float) (pnls : list float) : float :=
  match pnls with
  | [] => worst
  | pnl :: rest =>
      let equity := equity + pnl in
      let peak := fmax peak equity in
      drawdownFrom equity peak (fmax worst (peak - equity)) rest
  end.

Definition maxDrawdownOf (ledger : list Trade.t) : float :=
  drawdownFrom 0 0 0 (map Trade.pnl ledger).

(** The loop invariant behind the reported drawdown: the three variables
    are where the recurrence stands after the trades closed so far. *)
Definition DrawdownInv (st : State) : Prop :=
  ∀ rest, drawdownFrom (equity st) (peak st) (maxDrawdown st) rest
          = drawdownFrom 0 0 0 (map Trade.pnl (trades st) ++ rest).

(** What [generateSignals] pushes for index [i]. *)
Definition emitted (candles : list Candle) (i : nat) (s : Sig.t) : Prop :=
  ∃ rsiSeries raw candle,
    calcRSI (map c candles) 14 = Some rsiSeries ∧
    rawScore (map c candles) rsiSeries (calcMACDSeries (map c candles))
      (calcBollingerSeries (map c candles) 20) i = Some raw ∧
    candles !! i = Some candle ∧
    s = Sig.mk i (ts candle) (c candle) (Z.max (-100) (Z.min 100 (raw * 2))).

(** *** Flat windows

    Twenty closes of [x], and the [percentB] the series holds at an index
    ([None] when the entry is [null] or missing). *)
Definition flatWindow (x : float) : list float := replicate 20 x.

Definition percentBAt (closes : list float) (i : nat) : option float :=
  percentB <$> mjoin (calcBollingerSeries closes 20 !! i).

(** *** A sample series

    51 four-hour bars: 45 flat at 100, four closing at 90 after opening at
    100, one opening at 125, and a last one that opens at 100 and closes
    at 50. *)
Definition bar (i : nat) (oc : float * float) : Candle :=
  mkCandle (Z.of_nat i) oc.1 (fmax oc.1 oc.2) (if oc.1 <? oc.2 then oc.1 else oc.2) oc.2 1.

Definition exCandles : list Candle :=
  imap bar (replicate 45 (100, 100) ++ replicate 4 (100, 90) ++ [(125, 90); (100, 50)]).

Definition exSignals : list Sig.t := default [] (generateSignals exCandles).

End BacktestSpec.

(** ** Further notions, for the properties beyond the specification *)

Module SignalMore.
Import JS Signal SignalSpec.

(** A number of hundredths as [aggregate] returns it: [n / 100]. *)
Definition hundredths (n : Z) : float := (Z2float n / 100)%float.

Definition withinAt (n : Z) : bool :=
  ((-30 <=? hundredths n) && (hundredths n <=? 30))%float.

(** [Math.min] and [Math.max] on two numbers: NaN when either is NaN, and
    [-0] below [+0]. *)
Definition Math_min (a b : float) : float :=
  (if PrimFloat.is_nan a || PrimFloat.is_nan b then nan
   else if a <? b then a
   else if b <? a then b
   else if PrimFloat.is_zero a && PrimFloat.get_sign b then b else a)%float.

Definition Math_max (a b : float) : float :=
  (if PrimFloat.is_nan a || PrimFloat.is_nan b then nan
   else if a <? b then b
   else if b <? a then a
   else if PrimFloat.is_zero a && PrimFloat.get_sign a then b else a)%float.

(** The score bar of [main] (lines 402-412): [barWidth] cells, the centre
    line at cell [center], a marker at cell [pos], and a filling between the
    two. *)
Inductive Cell := centre | marker | filled | track.

Definition barWidth : nat := 40.
Definition center : float := (nat2float barWidth / 2)%float.

Definition normalized (total : float) : float := Math_max (-30) (Math_min 30 total).

Definition markerPos (total : float) : float :=
  Math_round (center + normalized total / 30 * center)%float.

Definition cellAt (pos : float) (i : nat) : Cell :=
  let i := nat2float i in
  (if i =? center then centre
   else if i =? pos then marker
   else if ((center <? i) && (i <=? pos)) || ((i <? center) && (pos <=? i)) then filled
   else track)%float.

Definition barAt (pos : float) : list Cell := map (cellAt pos) (seq 0 barWidth).

Definition scoreBar (total : float) : list Cell := barAt (markerPos total).

Definition isMarker (cell : Cell) : bool :=
  match cell with marker => true | _ => false end.

(** The number of markers in a bar. *)
Definition markers (bar : list Cell) : nat :=
  length (filter (λ cell, isMarker cell = true) bar).

(** The cell index a position stands for, among 0, 1, ..., [barWidth]. *)
Definition markerIndex (pos : float) : option nat :=
  find (λ k, PrimFloat.Leibniz.eqb pos (nat2float k)) (seq 0 (S barWidth)).

(** The checks behind the bar: on a total of [n] hundredths the clamp changes
    nothing and the position is a cell index; and with the position at index
    [k] the bar shows one marker, or none when [k] is the centre or lies past
    the last cell. *)
Definition clampOk (n : Z) : bool :=
  PrimFloat.Leibniz.eqb (normalized (hundredths n)) (hundredths n)
  && bool_decide (is_Some (markerIndex (markerPos (hundredths n)))).

Definition markerOk (k : nat) : bool :=
  (markers (barAt (nat2float k)) =? (if (k =? 20) || (k =? 40) then 0 else 1))%nat.

(** The closes [calcBollinger] reads: those of the last 20 candles. *)
Definition liveWindow (candles : list Candle) : list float :=
  map c (drop (length candles - 20) candles).

(** A change that is no loss: a rise, or exactly zero. *)
Definition noLoss (change : float) : Prop := (0 <? change)%float = true ∨ change = 0%float.

End SignalMore.

Module BacktestMore.
Import JS Backtest BacktestSpec.
Local Open Scope float_scope.

(** The close-to-close changes [calcRSI] walks over. *)
Definition changesOf (closes : list float) : list float :=
  zip_with (λ prev cur, cur - prev) closes (tail closes).

(** The result of a trade as its side and its two prices give it. *)
Definition pnlOf (side : Side) (entry exit : float) : float :=
  match side with
  | long => (exit - entry) / entry
  | short => (entry - exit) / entry
  end * 100.

(** A ledger entry agrees with the candles: entered at the open of its entry
    candle, exited at the open of its exit candle (at the close of the last
    candle for the end-of-data trade), with the result its prices give. *)
Definition executedOn (candles : list Candle) (t : Trade.t) : Prop :=
  (∃ bar, candles !! Trade.entryIdx t = Some bar ∧ Trade.entry t = o bar) ∧
  (∃ bar, candles !! Trade.exitIdx t = Some bar
          ∧ Trade.exit t = match Trade.reason t with end_of_data => c bar | _ => o bar end) ∧
  Trade.pnl t = pnlOf (Trade.side t) (Trade.entry t) (Trade.exit t).

(** The bars a trade was held, as the two exit paths count them. *)
Definition heldBars (t : Trade.t) : Z :=
  match Trade.reason t with
  | end_of_data => Z.of_nat (Trade.exitIdx t) - Z.of_nat (Trade.entryIdx t)
  | _ => Z.of_nat (Trade.exitIdx t) - 1 - Z.of_nat (Trade.entryIdx t)
  end.

(** Winning trades, and the sum of results in ledger order. *)
Definition won (t : Trade.t) : bool := 0 <? Trade.pnl t.

Definition sumPnl (ledger : list Trade.t) : float :=
  fold_left PrimFloat.add (map Trade.pnl ledger) 0.

(** A signal the loop can act on to enter: the next candle exists and the
    score reaches the entry threshold on either side. *)
Definition qualifies (candles : list Candle) (sig : Sig.t) : bool :=
  bool_decide (is_Some (candles !! (Sig.idx sig + LOOKFORWARD)%nat))
  && ((ENTRY_THRESHOLD <=? Sig.score sig)%Z || (Sig.score sig <=? - ENTRY_THRESHOLD)%Z).

(** The signals the loop handles: all but the last. *)
Definition acted (signals : list Sig.t) : list Sig.t :=
  take (length signals - LOOKFORWARD) signals.

(** The loop invariant behind the books: counters, total and equity follow
    the ledger, every entry agrees with the candles, and so does the open
    position. *)
Record BooksInv (candles : list Candle) (st : State) : Prop := {
  books_wins : wins st = length (filter (λ t, won t = true) (trades st));
  books_losses : losses st = length (filter (λ t, won t = false) (trades st));
  books_total : totalPnl st = sumPnl (trades st);
  books_equity : equity st = sumPnl (trades st);
  books_trades : Forall (λ t, executedOn candles t ∧ Trade.reason t ≠ end_of_data
                              ∧ Trade.holdBars t = heldBars t) (trades st);
  books_position : ∀ p, position st = Some p →
    ∃ bar, candles !! Pos.entryIdx p = Some bar ∧ Pos.entry p = o bar
}.

(** [fetchCandles(instId, bar, limit)] (lines 754-783).  The exchange is a
    parameter: [respond k] is the parsed [data] of the response to request
    number [k], the empty list standing for a response without rows
    ([!r?.data?.length]).  The loop state is the array [allCandles], the
    cursor [after] and the log of the cursors sent so far, where [None] is a
    request without the [after] parameter.  [fuel] bounds the iterations of
    the [while] loop; [None] is a loop that has not finished within it. *)
Definition batchSize : nat := 300.

(** [after ? '&after=' + after : ''] on the timestamp stored in [after]. *)
Definition cursorOf (ts : Z) : option Z := if (ts =? 0)%Z then None else Some ts.

Fixpoint fetchLoop (respond : nat → list Candle) (fuel needed : nat)
    (allCandles : list Candle) (after : option Z) (sent : list (option Z))
  : option (list Candle * list (option Z)) :=
  if (needed <=? length allCandles)%nat then Some (allCandles, sent)
  else
    match fuel with
    | O => None
    | S fuel =>
        let candles := respond (length sent) in
        let sent := sent ++ [after] in
        match last candles with
        | None => Some (allCandles, sent)
        | Some lastRow =>
            let allCandles := allCandles ++ candles in
            if (length candles <? batchSize)%nat then Some (allCandles, sent)
            else fetchLoop respond fuel needed allCandles (cursorOf (ts lastRow)) sent
        end
    end.

(** The candles returned, oldest first, and the cursors of the requests
    made. *)
Definition fetchCandles (respond : nat → list Candle) (fuel limit : nat)
  : option (list Candle * list (option Z)) :=
  (λ r, (rev r.1, r.2)) <$> fetchLoop respond fuel (Nat.min limit 600) [] None [].

(** The cursor of the request that follows a full page. *)
Definition secondCursor (page : list Candle) : option Z :=
  cursorOf (default 0%Z (ts <$> last page)).

(** An exchange that answers every request with 300 rows. *)
Definition fullPages (k : nat) : list Candle :=
  imap (λ i _, mkCandle (1000 - Z.of_nat (300 * k + i)) 100 100 100 100 1) (replicate 300 tt).

(** The simulator has something on its books: an open position or a ledger
    entry. *)
Definition busy (st : State) : Prop := position st ≠ None ∨ trades st ≠ [].

(** The RSI after Wilder's smoothing has run over [changes] from the
    averages [acc]. *)
Definition smoothed (p : float) (acc : float * float) (changes : list float) : float :=
  let '(avgGain, avgLoss) := fold_left (Signal.rsiSmooth p) changes acc in
  rsiValue avgGain avgLoss.

(** The signal distribution [main] prints (lines 1098-1105): the counters
    [(bullish, neutral, bearish)] after the loop over the signals. *)
Definition tally (acc : nat * nat * nat) (s : Sig.t) : nat * nat * nat :=
  let '(bullish, neutral, bearish) := acc in
  if (20 <=? Sig.score s)%Z then (S bullish, neutral, bearish)
  else if (Sig.score s <=? -20)%Z then (bullish, neutral, S bearish)
  else (bullish, S neutral, bearish).

Definition distribution (signals : list Sig.t) : nat * nat * nat :=
  fold_left tally signals (0%nat, 0%nat, 0%nat).

End BacktestMore.

(** * Properties of the scorer *)

Module SignalFacts.
Import JS Signal SignalSpec.

Section MACD.
Local Open Scope float_scope.

(** One pass of the MACD loop, with the new averages named. *)
Lemma macdStep_eq e12 e26 line i x :
  ∃ e12' e26', macdStep (e12, e26, line, i) x
    = (e12', e26', if (25 <=? i)%nat then line ++ [e12' - e26'] else line, S i)
    ∧ e12' = emaStep k12 e12 x ∧ e26' = emaStep k26 e26 x.
Proof. by eexists _, _. Qed.

Lemma macdStep_length rest : ∀ e12 e26 line i,
  (length (fold_left macdStep rest (e12, e26, line, i)).1.2 + Nat.max i 25
   = length line + Nat.max (i + length rest) 25)%nat.
Proof.
  induction rest as [|x rest IH]; intros e12 e26 line i; cbn [fold_left length].
  - cbn. lia.
  - destruct (macdStep_eq e12 e26 line i x) as (e12' & e26' & -> & _ & _).
    pose proof (IH e12' e26' (if (25 <=? i)%nat then line ++ [e12' - e26'] else line) (S i)) as H.
    destruct (Nat.leb_spec 25 i); rewrite ?length_app in H; cbn [length] in H; lia.
Qed.

(** The MACD line has one entry per close from the 26th on. *)
Lemma length_macdLineOf closes :
  length (macdLineOf closes) = (length closes - 25)%nat.
Proof.
  destruct closes as [|c0 rest]; [done|]. unfold macdLineOf.
  pose proof (macdStep_length rest c0 c0 [] 1) as H. cbn [length] in *. lia.
Qed.

Lemma macdAt_cons c0 rest n :
  macdAt (c0 :: rest) (S n)
  = Some (fold_left (emaStep k12) (take n rest) c0 - fold_left (emaStep k26) (take n rest) c0).
Proof. reflexivity. Qed.

Lemma macdStep_line c0 rest : ∀ pre line,
  Some <$> line = map (macdAt (c0 :: pre)) (seq 26 (length (c0 :: pre) - 25)) →
  Some <$> (fold_left macdStep rest
              (fold_left (emaStep k12) pre c0, fold_left (emaStep k26) pre c0,
               line, S (length pre))).1.2
  = map (macdAt (c0 :: pre ++ rest)) (seq 26 (length (c0 :: pre ++ rest) - 25)).
Proof.
  induction rest as [|x rest IH]; intros pre line Hline.
  - cbn [fold_left]. by rewrite app_nil_r.
  - cbn [fold_left].
    destruct (macdStep_eq (fold_left (emaStep k12) pre c0) (fold_left (emaStep k26) pre c0)
                line (S (length pre)) x) as (e12' & e26' & Hstep & He12 & He26).
    rewrite Hstep.
    assert (e12' = fold_left (emaStep k12) (pre ++ [x]) c0) as ->
      by (by rewrite fold_left_app).
    assert (e26' = fold_left (emaStep k26) (pre ++ [x]) c0) as ->
      by (by rewrite fold_left_app).
    replace (S (S (length pre))) with (S (length (pre ++ [x])))
      by (rewrite length_app; cbn; lia).
    replace (c0 :: pre ++ x :: rest) with (c0 :: (pre ++ [x]) ++ rest)
      by (by rewrite <- app_assoc).
    apply IH. cbn [length]. rewrite length_app. cbn [length].
    destruct (Nat.leb_spec 25 (S (length pre))) as [Hge|Hlt].
    + replace (S (length pre + 1) - 25)%nat with (S (S (length pre) - 25)) by lia.
      rewrite fmap_app, Hline, seq_S, map_app. cbn [length]. f_equal.
      * apply map_ext_in. intros n Hn%in_seq.
        destruct n as [|n]; [lia|]. rewrite !macdAt_cons.
        by rewrite take_app_le by lia.
      * cbn [map]. replace (26 + (S (length pre) - 25))%nat with (S (S (length pre))) by lia.
        rewrite macdAt_cons. by rewrite take_ge by (rewrite length_app; cbn; lia).
    + replace (S (length pre + 1) - 25)%nat with 0%nat by lia.
      replace (length (c0 :: pre) - 25)%nat with 0%nat in Hline by (cbn; lia).
      cbn in *. by destruct line.
Qed.

(** The array the loop builds is the MACD line of the specification:
    EMA(12) - EMA(26) over the closes so far, from the 26th close on. *)
Lemma macdLineOf_as_specified closes :
  Some <$> macdLineOf closes = macdLineSpec closes.
Proof.
  destruct closes as [|c0 rest]; [done|]. unfold macdLineOf, macdLineSpec.
  by apply (macdStep_line c0 rest [] []).
Qed.

(** The signal loop of [calcMACD] is [calcEMA] with period 9. *)
Lemma calcEMA_9 m0 rest :
  calcEMA (m0 :: rest) 9 = Some (fold_left (λ signal m, m * k9 + signal * (1 - k9)) rest m0).
Proof. reflexivity. Qed.

(** C4 (amended).  With fewer than 26 closes all three outputs are 0.  With
    26 to 33 closes the signal line and the histogram are 0 and [macd] is the
    last entry of the MACD line (0 when that entry is 0 or NaN).  From 34
    closes on (not 35) the MACD line has nine entries and the signal line is
    its EMA(9), [macd] is its last entry and the histogram is their
    difference.  The MACD line is EMA(12) - EMA(26) from the 26th close on. *)
Theorem C4_macd_needs_26_and_34 candles :
  let line := macdLineOf (map c candles) in
  ((length candles < 26)%nat → calcMACD (Some candles) = mkMACD 0 0 0) ∧
  ((26 <= length candles < 34)%nat →
     ∃ m, last line = Some m ∧ calcMACD (Some candles) = mkMACD (orElse m 0) 0 0) ∧
  ((34 <= length candles)%nat →
     ∃ m s, last line = Some m ∧ calcEMA line 9 = Some s
            ∧ calcMACD (Some candles) = mkMACD m s (m - s)) ∧
  Some <$> line = macdLineSpec (map c candles).
Proof.
  intros line.
  assert (length line = (length candles - 25)%nat) as Hline.
  { subst line. by rewrite length_macdLineOf, length_map. }
  split_and!; [| | |apply macdLineOf_as_specified].
  - intros Hn. unfold calcMACD. by destruct (Nat.ltb_spec (length candles) 26); [|lia].
  - intros Hn. unfold calcMACD. destruct (Nat.ltb_spec (length candles) 26); [lia|].
    fold line. destruct (Nat.ltb_spec (length line) 9); [|lia].
    destruct (last line) as [m|] eqn:Hlast; [by exists m|].
    apply last_None in Hlast. rewrite Hlast in Hline. cbn in Hline. lia.
  - intros Hn. unfold calcMACD. destruct (Nat.ltb_spec (length candles) 26); [lia|].
    fold line. destruct (Nat.ltb_spec (length line) 9); [lia|].
    destruct line as [|m0 rest] eqn:Hl; [cbn in *; lia|].
    destruct (last (m0 :: rest)) as [m|] eqn:Hlast; [|by apply last_None in Hlast].
    exists m, (fold_left (λ signal m, m * k9 + signal * (1 - k9)) rest m0).
    split; [done|]. split; [apply calcEMA_9|]. reflexivity.
Qed.

(** The theorem at 40 rising closes. *)
Lemma C4_macd_needs_26_and_34_witness :
  (34 <= length (rising 40))%nat ∧
  ∃ m s, last (macdLineOf (map c (rising 40))) = Some m
         ∧ calcEMA (macdLineOf (map c (rising 40))) 9 = Some s
         ∧ calcMACD (Some (rising 40)) = mkMACD m s (m - s).
Proof.
  split; [vm_compute; lia|].
  apply (C4_macd_needs_26_and_34 (rising 40)). vm_compute; lia.
Defined.

(** C4 as stated fails at 34 closes: fewer than 35, yet the signal line is
    the full EMA(9) of the MACD line and is not zero. *)
Lemma C4_signal_line_at_34 :
  (length (rising 34) < 35)%nat ∧
  (signal (calcMACD (Some (rising 34))) =? 0) = false ∧
  Some (signal (calcMACD (Some (rising 34)))) = calcEMA (macdLineOf (map c (rising 34))) 9.
Proof. vm_compute. split; [lia|]. split; reflexivity. Qed.

End MACD.

Section Aggregation.
Local Open Scope Z_scope.

Lemma In_rangeZ lo n z : lo <= z < lo + Z.of_nat n → In z (rangeZ lo n).
Proof.
  intros Hz. unfold rangeZ. apply in_map_iff. exists (Z.to_nat (z - lo)).
  split; [lia|]. apply in_seq. lia.
Qed.

(** The floating-point computation of [aggregate] and the exact rounded
    mean agree on every reachable pair of totals (checked by evaluation). *)
Lemma agree_all : forallb agreeOn (rangeZ 1 20) = true.
Proof. vm_compute. reflexivity. Qed.

Lemma mean_agrees w s :
  1 <= w <= 20 → -30 * w <= s <= 30 * w → meanCode (5 * s) (5 * w) = meanSpec (5 * s) (5 * w).
Proof.
  intros Hw Hs. pose proof agree_all as Hall.
  rewrite forallb_forall in Hall.
  assert (In w (rangeZ 1 20)) as Hin by (apply In_rangeZ; lia).
  specialize (Hall w Hin). unfold agreeOn in Hall. rewrite forallb_forall in Hall.
  apply FloatAxioms.Leibniz.eqb_spec, Hall, In_rangeZ. lia.
Qed.

Lemma identity_all : identityOn 10 && identityOn 15 = true.
Proof. vm_compute. reflexivity. Qed.

Lemma single_factor_mean w s :
  w = 10 ∨ w = 15 → -30 <= s <= 30 → meanCode (s * w + 0) (w + 0) = Z2float s.
Proof.
  intros Hw Hs. pose proof identity_all as Hall. apply andb_prop in Hall as [H10 H15].
  assert (identityOn w = true) as H by (by destruct Hw as [-> | ->]).
  unfold identityOn in H. rewrite forallb_forall in H.
  apply FloatAxioms.Leibniz.eqb_spec, H, In_rangeZ. lia.
Qed.

(** The loop of [aggregate] sums over the factors present. *)
Lemma totals_presentIn scores table : ∀ acc,
  fold_left (accumulate scores) table acc
  = (acc.1 + sumZ (map (λ sw, sw.1 * sw.2) (presentIn table scores)),
     acc.2 + sumZ (map snd (presentIn table scores))).
Proof.
  induction table as [|[key weight] table IH]; intros [a b]; cbn.
  - f_equal; lia.
  - rewrite IH. unfold accumulate. cbn.
    destruct (scores !! key) as [s|]; cbn; f_equal; unfold sumZ, presentIn; lia.
Qed.

Lemma totals_present scores :
  totals scores = (sumZ (map (λ sw, sw.1 * sw.2) (present scores)),
                   sumZ (map snd (present scores))).
Proof. unfold totals. by rewrite totals_presentIn. Qed.

(** Totals of in-range scores under weights 10 and 15: multiples of 5, the
    score total within 30 times the weight total. *)
Lemma presentIn_bounded scores table :
  map_Forall (λ _ s, -30 <= s <= 30) scores →
  Forall (λ kw, kw.2 = 10 ∨ kw.2 = 15) table →
  ∃ s w, sumZ (map (λ sw, sw.1 * sw.2) (presentIn table scores)) = 5 * s
       ∧ sumZ (map snd (presentIn table scores)) = 5 * w
       ∧ -30 * w <= s <= 30 * w
       ∧ 0 <= 5 * w <= sumZ (map snd table)
       ∧ (presentIn table scores = [] ↔ w = 0).
Proof.
  intros Hscores. unfold presentIn, sumZ.
  induction 1 as [|[key weight] table Hw _ (s & w & HS & HW & Hsw & Hb & Hnil)];
    cbn [omap list_omap map foldr fst snd].
  - exists 0, 0. split_and!; try done; lia.
  - cbn in Hw. destruct (scores !! key) as [x|] eqn:Hx;
      cbn [fmap option_fmap option_map omap list_omap map foldr fst snd].
    + apply Hscores in Hx. cbn in Hx.
      destruct Hw as [-> | ->].
      * exists (s + 2 * x), (w + 2). split_and!; try lia. split; [done|lia].
      * exists (s + 3 * x), (w + 3). split_and!; try lia. split; [done|lia].
    + exists s, w. split_and!; try lia. done.
Qed.

(** The totals [aggregate] divides, for in-range scores. *)
Lemma reachable_totals scores :
  map_Forall (λ _ s, -30 <= s <= 30) scores →
  ∃ s w, totals scores = (5 * s, 5 * w)
       ∧ sumZ (map (λ sw, sw.1 * sw.2) (present scores)) = 5 * s
       ∧ sumZ (map snd (present scores)) = 5 * w
       ∧ -30 * w <= s <= 30 * w ∧ 0 <= w <= 20
       ∧ (present scores = [] ↔ w = 0).
Proof.
  intros Hscores.
  assert (Forall (λ kw : string * Z, kw.2 = 10 ∨ kw.2 = 15) weights) as Hweights
    by (repeat constructor; cbn; auto).
  destruct (presentIn_bounded scores weights Hscores Hweights)
    as (s & w & HS & HW & Hsw & Hb & Hnil).
  change (sumZ (map snd weights)) with 100 in Hb.
  exists s, w. rewrite totals_present. fold (present scores) in HS, HW, Hnil.
  rewrite HS, HW. split_and!; try done; lia.
Qed.

(** C6.  For integer factor scores in the documented range [-30, 30], the
    aggregate is the weighted mean over the factors present, rounded to two
    decimal places (a tie rounds up, as [Math.round] does), and it is 0 when
    no factor is present. *)
Theorem C6_aggregate_is_rounded_weighted_mean (scores : gmap string Z) :
  map_Forall (λ _ s, -30 <= s <= 30) scores →
  aggregate scores = roundedMean scores
  ∧ (present scores = [] → aggregate scores = 0%float).
Proof.
  intros Hscores.
  destruct (reachable_totals scores Hscores) as (s & w & Ht & HS & HW & Hsw & Hw & Hnil).
  unfold aggregate, roundedMean, weightedMean. rewrite Ht, HS, HW.
  destruct (Z.eqb_spec (5 * w) 0) as [Hz|Hz].
  - assert (w = 0) as Hw0 by lia. apply Hnil in Hw0 as ->. done.
  - destruct (present scores) as [|sw rest] eqn:Hp.
    { destruct Hnil as [Hnil _]. specialize (Hnil eq_refl). lia. }
    split; [|done]. apply (mean_agrees w s); lia.
Qed.

(** The theorem on three factors with total 325 over weight 40: the mean
    8.125 is reported as 8.13. *)
Lemma C6_aggregate_is_rounded_weighted_mean_witness :
  map_Forall (λ _ s, -30 <= s <= 30) threeFactors
  ∧ aggregate threeFactors = roundedMean threeFactors
  ∧ aggregate threeFactors = 8.13%float.
Proof.
  assert (map_Forall (λ _ s, -30 <= s <= 30) threeFactors) as H.
  { unfold threeFactors. repeat apply map_Forall_insert_2; try lia.
    apply map_Forall_empty. }
  split; [exact H|]. split; [|vm_compute; reflexivity].
  apply (C6_aggregate_is_rounded_weighted_mean threeFactors H).
Defined.

(** A tie below zero also rounds up: -8.125 is reported as -8.12. *)
Remark negative_tie_rounds_up :
  aggregate {[ "funding" := -15; "longShort" := 0; "macd" := -10 ]} = (-8.12)%float.
Proof. vm_compute. reflexivity. Qed.

End Aggregation.

Section Scorer.
Local Open Scope Z_scope.

(** *** Every score the scorer stores is a factor score *)

Lemma fundingBand_range fr : -30 <= fundingBand fr <= 30.
Proof. unfold fundingBand. repeat case_match; lia. Qed.

Lemma fundingTrendBand_range r o : -30 <= fundingTrendBand r o <= 30.
Proof. unfold fundingTrendBand. repeat case_match; lia. Qed.

Lemma longShortBand_range ls : -25 <= longShortBand ls <= 25.
Proof. unfold longShortBand. repeat case_match; lia. Qed.

Lemma longShortTrend_range ch : -5 <= longShortTrend ch <= 5.
Proof. unfold longShortTrend. repeat case_match; lia. Qed.

Lemma fearGreedBand_range fg : -30 <= fearGreedBand fg <= 30.
Proof. unfold fearGreedBand. repeat case_match; lia. Qed.

Lemma rsiBand_range r : -30 <= rsiBand r <= 30.
Proof. unfold rsiBand. repeat case_match; lia. Qed.

Lemma macdBand_range m : -30 <= macdBand m <= 30.
Proof. unfold macdBand. repeat case_match; lia. Qed.

Lemma bollingerBand_range b : -30 <= bollingerBand b <= 30.
Proof. unfold bollingerBand. repeat case_match; lia. Qed.

Lemma liquidationBand_range p : -30 <= liquidationBand p <= 30.
Proof. unfold liquidationBand. repeat case_match; lia. Qed.

Lemma factorScore_insert key s (scores : gmap string Z) :
  factorScore key s → map_Forall factorScore scores →
  map_Forall factorScore (<[key := s]> scores).
Proof. intros. by apply map_Forall_insert_2. Qed.

Ltac factor_key := split; [cbn; set_solver|].

Ltac factor_block range :=
  repeat case_match; try done; (apply factorScore_insert; [|done]); factor_key; apply range.

Lemma scoreSignals_factorScores data : map_Forall factorScore (scoreSignals data).
Proof.
  unfold scoreSignals.
  assert (map_Forall factorScore (∅ : gmap string Z)) as H0 by apply map_Forall_empty.
  assert (map_Forall factorScore (scoreFunding data ∅)) as H1.
  { unfold scoreFunding. factor_block fundingBand_range. }
  assert (map_Forall factorScore (scoreFundingTrend data (scoreFunding data ∅))) as H2.
  { unfold scoreFundingTrend. factor_block fundingTrendBand_range. }
  assert (map_Forall factorScore
            (scoreLongShort data (scoreFundingTrend data (scoreFunding data ∅)))) as H3.
  { unfold scoreLongShort. repeat case_match; try done;
      (apply factorScore_insert; [|done]); factor_key;
      repeat match goal with
             | |- context [longShortBand ?a] =>
                 pose proof (longShortBand_range a); generalize dependent (longShortBand a)
             | |- context [longShortTrend ?b] =>
                 pose proof (longShortTrend_range b); generalize dependent (longShortTrend b)
             end; intros; lia. }
  assert (map_Forall factorScore
            (scoreFearGreed data (scoreLongShort data
               (scoreFundingTrend data (scoreFunding data ∅))))) as H4.
  { unfold scoreFearGreed. factor_block fearGreedBand_range. }
  assert (map_Forall factorScore
            (scoreRsi data (scoreFearGreed data (scoreLongShort data
               (scoreFundingTrend data (scoreFunding data ∅)))))) as H5.
  { unfold scoreRsi. factor_block rsiBand_range. }
  assert (map_Forall factorScore
            (scoreMacd data (scoreRsi data (scoreFearGreed data (scoreLongShort data
               (scoreFundingTrend data (scoreFunding data ∅))))))) as H6.
  { unfold scoreMacd. factor_block macdBand_range. }
  assert (map_Forall factorScore
            (scoreBollinger data (scoreMacd data (scoreRsi data (scoreFearGreed data
               (scoreLongShort data (scoreFundingTrend data (scoreFunding data ∅)))))))) as H7.
  { unfold scoreBollinger. factor_block bollingerBand_range. }
  unfold scoreLiquidation. factor_block liquidationBand_range.
Qed.

Lemma scoreSignals_bounded data : map_Forall (λ _ s, -30 <= s <= 30) (scoreSignals data).
Proof.
  intros key s H. by destruct (scoreSignals_factorScores data key s H).
Qed.

(** Whatever the snapshot, the live aggregate is the rounded weighted mean
    of the factors it scored. *)
Lemma aggregate_scoreSignals data :
  aggregate (scoreSignals data) = roundedMean (scoreSignals data).
Proof.
  destruct (reachable_totals _ (scoreSignals_bounded data))
    as (s & w & Ht & HS & HW & Hsw & Hw & Hnil).
  unfold aggregate, roundedMean, weightedMean. rewrite Ht, HS, HW.
  destruct (Z.eqb_spec (5 * w) 0) as [Hz|Hz].
  - assert (w = 0) as Hw0 by lia. by apply Hnil in Hw0 as ->.
  - destruct (present (scoreSignals data)) as [|sw rest] eqn:Hp.
    { destruct Hnil as [Hnil _]. specialize (Hnil eq_refl). lia. }
    apply (mean_agrees w s); lia.
Qed.

(** C5.  When the scorer produced exactly one factor, the aggregate is that
    factor's score. *)
Theorem C5_single_factor_identity data key s :
  scoreSignals data = {[ key := s ]} →
  aggregate (scoreSignals data) = Z2float s.
Proof.
  intros Hone.
  destruct (scoreSignals_factorScores data key s) as [Hkey Hs].
  { rewrite Hone. apply lookup_singleton_eq. }
  rewrite Hone. unfold aggregate. rewrite totals_present.
  cbn in Hkey.
  assert (∃ w, (w = 10 ∨ w = 15) ∧ present ({[key := s]} : gmap string Z) = [(s, w)])
    as (w & Hw & ->).
  { repeat (apply elem_of_cons in Hkey as [-> | Hkey]);
      [..|by apply elem_of_nil in Hkey]; eexists; (split; [|vm_compute; reflexivity]); auto. }
  cbn [map foldr sumZ fst snd].
  assert ((w + 0 =? 0) = false) as -> by (destruct Hw as [-> | ->]; reflexivity).
  by apply single_factor_mean.
Qed.

(** The scenario of C5: a funding rate of -0.002 and nothing else scores
    the single factor [funding = 30], and the aggregate is exactly 30. *)
Lemma C5_single_factor_identity_witness :
  scoreSignals (fundingAt (-0.002)) = {[ "funding" := 30 ]}
  ∧ aggregate (scoreSignals (fundingAt (-0.002))) = 30%float.
Proof.
  split; [vm_compute; reflexivity|].
  apply (C5_single_factor_identity (fundingAt (-0.002)) "funding" 30).
  vm_compute; reflexivity.
Defined.

End Scorer.

Section Bands.
Local Open Scope float_scope.

(** The code and the tables agree on every number, not only on thresholds. *)
Lemma bands_as_documented :
  Forall (λ factor : (float → Z) * Table, ∀ x, factor.1 x = documented factor.2 x)
         singleInputFactors.
Proof. repeat constructor. Qed.

(** *** Order of binary64 numbers *)




(** *** What [scoreSignals] stores under each key *)

Ltac other_key :=
  intros; repeat case_match; try done; by rewrite lookup_insert_ne.

Lemma scoreFunding_other data (m : gmap string Z) k :
  k ≠ "funding" → scoreFunding data m !! k = m !! k.
Proof. unfold scoreFunding. other_key. Qed.

Lemma scoreFundingTrend_other data (m : gmap string Z) k :
  k ≠ "fundingTrend" → scoreFundingTrend data m !! k = m !! k.
Proof. unfold scoreFundingTrend. other_key. Qed.

Lemma scoreLongShort_other data (m : gmap string Z) k :
  k ≠ "longShort" → scoreLongShort data m !! k = m !! k.
Proof. unfold scoreLongShort. other_key. Qed.

Lemma scoreFearGreed_other data (m : gmap string Z) k :
  k ≠ "fearGreed" → scoreFearGreed data m !! k = m !! k.
Proof. unfold scoreFearGreed. other_key. Qed.

Lemma scoreRsi_other data (m : gmap string Z) k :
  k ≠ "rsi" → scoreRsi data m !! k = m !! k.
Proof. unfold scoreRsi. other_key. Qed.

Lemma scoreMacd_other data (m : gmap string Z) k :
  k ≠ "macd" → scoreMacd data m !! k = m !! k.
Proof. unfold scoreMacd. other_key. Qed.

Lemma scoreBollinger_other data (m : gmap string Z) k :
  k ≠ "bollinger" → scoreBollinger data m !! k = m !! k.
Proof. unfold scoreBollinger. other_key. Qed.

Lemma scoreLiquidation_other data (m : gmap string Z) k :
  k ≠ "liquidation" → scoreLiquidation data m !! k = m !! k.
Proof. unfold scoreLiquidation. other_key. Qed.












(** A change is measured on the binary64 ratios: from 1.2 to 1.5 the
    computed change is 0.30000000000000004, which is above the threshold (as
    the exact difference of the two binary64 numbers is), and 5 is taken off;
    from 0.3 to 0.6 the computed change is the threshold itself and nothing is
    added. *)
Remark ratio_change_next_to_the_boundary :
  1.5 - 1.2 = 0.30000000000000004
  ∧ scoreSignals (mkData None None (Some 1.5) (Some 1.2) None None None None) !! "longShort"
    = Some 5%Z
  ∧ 0.6 - 0.3 = 0.3
  ∧ scoreSignals (mkData None None (Some 0.6) (Some 0.3) None None None None) !! "longShort"
    = Some 25%Z.
Proof. vm_compute. split_and!; reflexivity. Qed.

(** Thresholds reached through [scoreSignals]: an RSI of exactly 20 (one
    gain of 14 and one loss of 56 over fourteen changes), a long-liquidation
    share of exactly 0.8, a long/short ratio of exactly 3.5 and a fear-greed
    index of exactly 10. *)
Lemma boundaries_through_scoreSignals :
  calcRSI (Some rsi20) 14 = 20
  ∧ scoreSignals (mkData None None None None (Some rsi20) None None None) !! "rsi"
    = Some 15%Z
  ∧ scoreSignals (mkData None None None None None None (Some 4) (Some 1)) !! "liquidation"
    = Some 5%Z
  ∧ scoreSignals (mkData None None (Some 3.5) None None None None None) !! "longShort"
    = Some (-10)%Z
  ∧ scoreSignals (mkData None None None None None (Some 10) None None) !! "fearGreed"
    = Some 30%Z.
Proof. vm_compute. split_and!; reflexivity. Qed.

End Bands.

End SignalFacts.

(** * Properties of the signal generator and of the simulator *)

Module BacktestFacts.
Import JS Backtest BacktestSpec.

Section Series.
Local Open Scope float_scope.

(** *** The indicator series are as long as the closes *)

Lemma length_emaFrom k prev values : length (emaFrom k prev values) = length values.
Proof.
  revert prev. induction values as [|v rest IH]; intros prev; cbn; [done|]. by rewrite IH.
Qed.

Lemma length_calcEMASeries values period :
  values ≠ [] → length (calcEMASeries values period) = length values.
Proof.
  destruct values as [|v0 rest]; [done|]. intros _. cbn. by rewrite length_emaFrom.
Qed.

Lemma length_calcMACDSeries closes :
  closes ≠ [] → length (calcMACDSeries closes) = length closes.
Proof.
  intros Hne. unfold calcMACDSeries.
  assert (length (zip_with (λ v w, v - w) (calcEMASeries closes 12)
                           (calcEMASeries closes 26)) = length closes) as Hline.
  { rewrite length_zip_with, !length_calcEMASeries by done. lia. }
  rewrite length_zip_with, length_calcEMASeries, Hline; [lia|].
  intros Hnil. rewrite Hnil in Hline. destruct closes; [done|discriminate].
Qed.

Lemma calcRSI_long closes period :
  (period + 1 <= length closes)%nat → is_Some (calcRSI closes period).
Proof.
  intros Hlen. unfold calcRSI.
  destruct (Nat.ltb_spec (length closes) (period + 1)); [lia|].
  repeat case_match. eauto.
Qed.

Lemma sum1_is_Some xs : xs ≠ [] → is_Some (sum1 xs).
Proof. destruct xs; [done|]. cbn. eauto. Qed.

Lemma slice_nonempty {A} (a b : nat) (xs : list A) :
  (a < b)%nat → (a < length xs)%nat → slice a b xs ≠ [].
Proof.
  intros Hab Hlen Hnil. apply (f_equal length) in Hnil.
  unfold slice in Hnil. rewrite length_take, length_drop in Hnil. cbn in Hnil. lia.
Qed.

End Series.

Section Generator.
Local Open Scope Z_scope.

(** *** Ranges of the parts of the raw score *)

Lemma rsiPart_range r : -30 <= rsiPart r <= 30.
Proof. unfold rsiPart. repeat case_match; lia. Qed.

Lemma macdPart_range m : -15 <= macdPart m <= 15.
Proof. unfold macdPart. repeat case_match; lia. Qed.

Lemma crossPart_range p m : -10 <= crossPart p m <= 10.
Proof. unfold crossPart. repeat case_match; lia. Qed.

Lemma bbPart_range b : -20 <= bbPart b <= 20.
Proof. unfold bbPart. repeat case_match; lia. Qed.

Lemma trendPart_is_Some closes i :
  (i < length closes)%nat → ∃ trend, trendPart closes i = Some trend ∧ -10 <= trend <= 10.
Proof.
  intros Hi. unfold trendPart. destruct (50 <=? i)%nat; [|exists 0; split; [done|lia]].
  destruct (sum1_is_Some (slice (i - 19) (i + 1) closes)) as [s20 ->];
    [apply slice_nonempty; lia|].
  destruct (sum1_is_Some (slice (i - 49) (i + 1) closes)) as [s50 ->];
    [apply slice_nonempty; lia|].
  cbn. eexists; split; [reflexivity|]. repeat case_match; lia.
Qed.

(** Inside the series the loop body finds every element it reads. *)
Lemma rawScore_is_Some closes rsiSeries macdSeries bbSeries i :
  (0 < i)%nat → (i < length closes)%nat → length macdSeries = length closes →
  ∃ raw, rawScore closes rsiSeries macdSeries bbSeries i = Some raw ∧ -85 <= raw <= 85.
Proof.
  intros Hpos Hi Hlen. unfold rawScore.
  assert ((0 <? i)%nat = true) as -> by (apply Nat.ltb_lt; lia).
  destruct (lookup_lt_is_Some_2 macdSeries i) as [m ->]; [lia|].
  destruct (lookup_lt_is_Some_2 macdSeries (i - 1)) as [prev ->]; [lia|].
  destruct (trendPart_is_Some closes i Hi) as (trend & -> & Hrange).
  cbn. eexists; split; [reflexivity|].
  pose proof (rsiPart_range (rsiSeries !! i)).
  pose proof (macdPart_range m).
  pose proof (crossPart_range prev m).
  pose proof (bbPart_range (bbSeries !! i)).
  lia.
Qed.

Lemma signalAt_emits candles i :
  (30 <= i)%nat → (i < length candles)%nat →
  ∃ s, (rsiSeries ← calcRSI (map c candles) 14;
        signalAt candles (map c candles) rsiSeries (calcMACDSeries (map c candles))
          (calcBollingerSeries (map c candles) 20) i) = Some s
       ∧ emitted candles i s.
Proof.
  intros Hlo Hhi.
  destruct (calcRSI_long (map c candles) 14) as [rs Hrs]; [rewrite length_map; lia|].
  assert (map c candles ≠ []) as Hne.
  { intros Hnil. apply (f_equal length) in Hnil. rewrite length_map in Hnil. cbn in Hnil. lia. }
  destruct (rawScore_is_Some (map c candles) rs (calcMACDSeries (map c candles))
              (calcBollingerSeries (map c candles) 20) i) as (raw & Hraw & _);
    [lia|rewrite length_map; lia|by apply length_calcMACDSeries|].
  destruct (lookup_lt_is_Some_2 candles i Hhi) as [candle Hcandle].
  rewrite Hrs. cbn. unfold signalAt. rewrite Hraw. cbn. rewrite Hcandle. cbn.
  eexists; split; [reflexivity|]. by exists rs, raw, candle.
Qed.

Lemma generateSignals_emits candles :
  ∃ signals, generateSignals candles = Some signals ∧
    Forall2 (emitted candles) (seq 30 (length candles - 30)) signals.
Proof.
  unfold generateSignals.
  match goal with |- context [mapM ?g _] => set (f := g) end.
  assert (Forall (λ i, ∃ s, f i = Some s ∧ emitted candles i s)
            (seq 30 (length candles - 30))) as Hall.
  { apply Forall_seq. intros i Hi. apply signalAt_emits; lia. }
  destruct (mapM_is_Some_2 f (seq 30 (length candles - 30))) as [signals Hsignals].
  { eapply Forall_impl; [exact Hall|]. intros i (s & Hs & _). unfold compose. by rewrite Hs. }
  exists signals. split; [done|].
  apply mapM_Some_1 in Hsignals.
  clear -Hall Hsignals. induction Hsignals as [|i s idxs sigs Hf _ IH]; [constructor|].
  apply Forall_cons in Hall as [(s' & Hs' & Hem) Hall].
  constructor; [|by apply IH]. congruence.
Qed.

Lemma emitted_idx candles signals j n :
  Forall2 (emitted candles) (seq j n) signals → Sig.idx <$> signals = seq j n.
Proof.
  intros H. induction H as [|i s idxs sigs Hf _ IH]; [done|].
  rewrite fmap_cons, IH. f_equal. by destruct Hf as (? & ? & ? & _ & _ & _ & ->).
Qed.

Lemma ascending_seq (signals : list Sig.t) j n :
  Sig.idx <$> signals = seq j n → ascending signals.
Proof.
  unfold ascending. intros ->. revert j.
  induction n as [|n IH]; intros j; cbn; [constructor|].
  apply StronglySorted_cons. split; [|apply IH].
  apply Forall_seq. intros; lia.
Qed.

(** The generator never throws, and it numbers its signals in ascending
    order. *)
Lemma generateSignals_ascending candles :
  ∃ signals, generateSignals candles = Some signals ∧ ascending signals.
Proof.
  destruct (generateSignals_emits candles) as (signals & Hsignals & Hall).
  exists signals. split; [done|]. eapply ascending_seq, emitted_idx, Hall.
Qed.

(** C8.  For every candle sequence the generator returns (it does not
    throw) one signal per candle index from 30 on, in order, and the score of
    each is the raw combined score of its bar doubled and clamped to
    [-100, 100]. *)
Theorem C8_one_clamped_signal_per_bar candles :
  ∃ signals, generateSignals candles = Some signals ∧
    Sig.idx <$> signals = seq 30 (length candles - 30) ∧
    ∀ s, s ∈ signals →
      ∃ rsiSeries raw,
        calcRSI (map c candles) 14 = Some rsiSeries ∧
        rawScore (map c candles) rsiSeries (calcMACDSeries (map c candles))
          (calcBollingerSeries (map c candles) 20) (Sig.idx s) = Some raw ∧
        Sig.score s = Z.max (-100) (Z.min 100 (raw * 2)) ∧
        -100 <= Sig.score s <= 100.
Proof.
  destruct (generateSignals_emits candles) as (signals & Hsignals & Hall).
  exists signals. split; [done|]. split; [by eapply emitted_idx|].
  intros s Hin. apply list_elem_of_lookup in Hin as [k Hk].
  destruct (Forall2_lookup_r _ _ _ _ _ Hall Hk)
    as (i & _ & rs & raw & cd & Hrs & Hraw & _ & ->).
  exists rs, raw. cbn. split_and!; [done|done|done|lia|lia].
Qed.

End Generator.

Section Bar.
Local Open Scope float_scope.

(** *** One bar *)

Lemma barState_succ signals candles k sig :
  barSignal signals k = Some sig →
  barState signals candles (S k) = step candles (barState signals candles k) sig.
Proof.
  unfold barSignal, barState. intros Hk.
  rewrite (take_S_r _ _ _ Hk), fold_left_app. reflexivity.
Qed.

Lemma runLoop_barState signals candles :
  runLoop signals candles = barState signals candles (length signals).
Proof.
  unfold runLoop, barState. f_equal. rewrite take_take. f_equal. lia.
Qed.

(** The exit check either leaves the state alone or appends one trade for
    the open position and clears it. *)
Lemma exitCheck_cases st sig price st1 skip :
  exitCheck st sig price = (st1, skip) →
  (st1 = st ∧ skip = false) ∨
  (∃ p t, position st = Some p ∧ trades st1 = trades st ++ [t] ∧ position st1 = None
      ∧ Trade.side t = Pos.side p ∧ Trade.entryIdx t = Pos.entryIdx p
      ∧ Trade.exitIdx t = (Sig.idx sig + LOOKFORWARD)%nat ∧ Trade.exit t = price
      ∧ (skip = true ∧ (Trade.reason t = take_profit ∨ Trade.reason t = stop_loss)
         ∨ skip = false ∧ Trade.reason t = signal_reversal
           ∧ reversed p (Sig.score sig) = true)).
Proof.
  unfold exitCheck. destruct (position st) as [p|] eqn:Hp.
  - destruct (_ || _) eqn:Hstop.
    + intros [= <- <-]. right. eexists p, _. cbn.
      repeat split; try reflexivity. left. split; [reflexivity|].
      case_match; auto.
    + destruct (reversed p (Sig.score sig)) eqn:Hrev.
      * intros [= <- <-]. right. eexists p, _. cbn.
        repeat split; try reflexivity. right. auto.
      * intros [= <- <-]. left. auto.
  - intros [= <- <-]. left. auto.
Qed.

(** The entry check touches nothing but the position, and only when there is
    none. *)
Lemma entryCheck_cases st sig price :
  trades (entryCheck st sig price) = trades st ∧
  (entryCheck st sig price = st ∨
   ∃ p, position st = None ∧ position (entryCheck st sig price) = Some p
     ∧ Pos.entry p = price ∧ Pos.entryIdx p = (Sig.idx sig + LOOKFORWARD)%nat
     ∧ (Pos.side p = long ∧ (ENTRY_THRESHOLD <= Sig.score sig)%Z
        ∨ Pos.side p = short ∧ (Sig.score sig <= - ENTRY_THRESHOLD)%Z)).
Proof.
  unfold entryCheck. destruct (position st) as [p|] eqn:Hp; [auto|].
  destruct (Z.leb_spec ENTRY_THRESHOLD (Sig.score sig)).
  - split; [reflexivity|]. right. eexists. cbn. repeat split; auto.
  - destruct (Z.leb_spec (Sig.score sig) (- ENTRY_THRESHOLD)).
    + split; [reflexivity|]. right. eexists. cbn. repeat split; auto.
    + auto.
Qed.

(** A score that closes a position on reversal can only enter the other
    side. *)
Lemma reversed_opposite p score q :
  reversed p score = true →
  (Pos.side q = long ∧ (ENTRY_THRESHOLD <= score)%Z
   ∨ Pos.side q = short ∧ (score <= - ENTRY_THRESHOLD)%Z) →
  Pos.side q = opposite (Pos.side p).
Proof.
  unfold reversed, ENTRY_THRESHOLD, EXIT_THRESHOLD.
  destruct (Pos.side p); cbn; intros Hr [[-> H]|[-> H]]; try reflexivity; lia.
Qed.

Lemma app_singleton_inj {A} (xs : list A) (x y : A) : xs ++ [x] = xs ++ [y] → x = y.
Proof. intros H. apply app_inv_head in H. congruence. Qed.

Lemma app_singleton_neq {A} (xs : list A) (x : A) : xs ++ [x] ≠ xs.
Proof.
  intros H. apply (f_equal length) in H. rewrite length_app in H. cbn in H. lia.
Qed.

Lemma step_event candles st sig :
  BarEvent sig st (step candles st sig) ∧
  (is_Some (candles !! (Sig.idx sig + LOOKFORWARD)%nat) ∨ step candles st sig = st).
Proof.
  unfold step. destruct (candles !! _) as [next|]; [|split; [by constructor|by right]].
  split; [|by left].
  destruct (exitCheck st sig (o next)) as [st1 skip] eqn:Hexit.
  apply exitCheck_cases in Hexit
    as [[-> ->]|(p & t & Hp & Htr & Hnone & Hside & Hentry & Hexit & Hprice & Hwhy)].
  - destruct (entryCheck_cases st sig (o next))
      as [Htr [Hsame|(q & Hnone & Hq & _ & Hidx & _)]].
    + rewrite Hsame. by constructor.
    + by eapply bar_enter.
  - destruct Hwhy as [[-> Hwhy]|(-> & Hwhy & Hrev)].
    + eapply bar_exit; eauto. destruct Hwhy; congruence.
    + destruct (entryCheck_cases st1 sig (o next))
        as [Htr1 [Hsame|(q & _ & Hq & Hqprice & Hqidx & Hqside)]].
      * rewrite Hsame. eapply bar_exit; eauto. congruence.
      * eapply bar_reverse; eauto; try congruence.
        rewrite Hside. eapply reversed_opposite; eauto.
Qed.

(** A bar that closes on a signal reversal goes on to the entry check. *)
Lemma step_reversal candles st sig t :
  trades (step candles st sig) = trades st ++ [t] → Trade.reason t = signal_reversal →
  ∃ p, position st = Some p ∧ Trade.side t = Pos.side p
       ∧ reversed p (Sig.score sig) = true
       ∧ Trade.exitIdx t = (Sig.idx sig + LOOKFORWARD)%nat
       ∧ position (step candles st sig)
         = if (ENTRY_THRESHOLD <=? Sig.score sig)%Z
           then Some (Pos.mk long (Trade.exit t) (Sig.idx sig + LOOKFORWARD) (Sig.score sig))
           else if (Sig.score sig <=? - ENTRY_THRESHOLD)%Z
           then Some (Pos.mk short (Trade.exit t) (Sig.idx sig + LOOKFORWARD) (Sig.score sig))
           else None.
Proof.
  unfold step. destruct (candles !! _) as [next|];
    [|intros H; by destruct (app_singleton_neq (trades st) t)].
  unfold exitCheck. destruct (position st) as [p|] eqn:Hp.
  - destruct (_ || _).
    + cbn. intros Ht%app_singleton_inj Hr. subst t. cbn in Hr. by destruct (_ <=? _).
    + destruct (reversed p (Sig.score sig)) eqn:Hrev.
      * unfold entryCheck. cbn [position closeAt].
        intros Ht Hr. exists p.
        assert (t = Trade.mk (Pos.side p) (Pos.entry p) (o next) (pnlPctOf p (o next) * 100)
                      signal_reversal (Pos.entryIdx p) (Sig.idx sig + LOOKFORWARD)
                      (Z.of_nat (Sig.idx sig) - Z.of_nat (Pos.entryIdx p))) as ->.
        { symmetry. eapply app_singleton_inj. rewrite <- Ht.
          repeat case_match; reflexivity. }
        cbn. split_and!; try done. repeat case_match; reflexivity.
      * unfold entryCheck. rewrite Hp. intros H. by destruct (app_singleton_neq (trades st) t).
  - unfold entryCheck. rewrite Hp. intros H Hr. exfalso.
    repeat case_match; cbn in H; by destruct (app_singleton_neq (trades st) t).
Qed.

(** C1 (amended).  On every bar of every run: a position that is open before
    the bar is replaced by a new one only when the bar closes it on a signal
    reversal, so no position is ever opened on top of an open one; a bar that
    closes a position by stop-loss or take-profit leaves the simulator flat;
    a bar that both closes and opens closes by signal reversal and opens the
    opposite side at the exit price, on the exit bar; and a bar that closes
    on a signal reversal does open that position whenever the score reaches
    the entry threshold (20 or more, or -20 or less), and is left flat
    otherwise. *)
Theorem C1_entries_only_when_flat signals candles k sig :
  barSignal signals k = Some sig →
  let st := barState signals candles k in
  let st' := barState signals candles (S k) in
  (∀ p q, position st = Some p → openedOn st st' q →
     ∃ t, closedOn st st' t ∧ Trade.reason t = signal_reversal
          ∧ Trade.entryIdx t = Pos.entryIdx p) ∧
  (∀ t, closedOn st st' t →
     Trade.reason t = take_profit ∨ Trade.reason t = stop_loss →
     position st' = None) ∧
  (∀ t q, closedOn st st' t → openedOn st st' q →
     Trade.reason t = signal_reversal ∧ Pos.side q = opposite (Trade.side t)
     ∧ Pos.entry q = Trade.exit t ∧ Pos.entryIdx q = Trade.exitIdx t) ∧
  (∀ t, closedOn st st' t → Trade.reason t = signal_reversal →
     if (ENTRY_THRESHOLD <=? Sig.score sig)%Z || (Sig.score sig <=? - ENTRY_THRESHOLD)%Z
     then ∃ q, openedOn st st' q ∧ Pos.side q = opposite (Trade.side t)
               ∧ Pos.entry q = Trade.exit t ∧ Pos.entryIdx q = Trade.exitIdx t
     else position st' = None).
Proof.
  intros Hsig st st'. subst st'. rewrite (barState_succ _ _ _ _ Hsig). fold st.
  unfold closedOn, openedOn.
  assert (∀ t, trades (step candles st sig) = trades st ++ [t] →
               Trade.reason t = signal_reversal →
     if (ENTRY_THRESHOLD <=? Sig.score sig)%Z || (Sig.score sig <=? - ENTRY_THRESHOLD)%Z
     then ∃ q, (position (step candles st sig) = Some q ∧ position st ≠ Some q)
               ∧ Pos.side q = opposite (Trade.side t)
               ∧ Pos.entry q = Trade.exit t ∧ Pos.entryIdx q = Trade.exitIdx t
     else position (step candles st sig) = None) as Hreenter.
  { intros t Ht Hr.
    destruct (step_reversal candles st sig t Ht Hr) as (p & Hp & Hside & Hrev & Hidx & ->).
    unfold reversed in Hrev. unfold ENTRY_THRESHOLD, EXIT_THRESHOLD in *.
    destruct (Z.leb_spec 20 (Sig.score sig)); cbn [orb].
    - eexists. split_and!; try reflexivity; try done.
      + rewrite Hp. intros [= ->]. cbn in Hrev. lia.
      + cbn. rewrite Hside. destruct (Pos.side p); [cbn in Hrev; lia|done].
    - destruct (Z.leb_spec (Sig.score sig) (Z.opp 20)); [|done].
      eexists. split_and!; try reflexivity; try done.
      + rewrite Hp. intros [= ->]. cbn in Hrev. lia.
      + cbn. rewrite Hside. destruct (Pos.side p); [done|cbn in Hrev; lia]. }
  destruct (step_event candles st sig) as [Hev _].
  destruct Hev as [Hsame|q Hnone Htr Hq Hqi|p t Hp Htr Hnone Hte Htx Hwhy
                  |p t q Hp Htr Hq Hte Htx Hwhy Hside Hprice Hqi].
  - rewrite Hsame in *. split_and!; [| | |exact Hreenter].
    + intros p q Hp [Hq Hne]. congruence.
    + intros t Ht. by destruct (app_singleton_neq (trades st) t).
    + intros t q Ht. by destruct (app_singleton_neq (trades st) t).
  - split_and!; [| | |exact Hreenter]; rewrite Htr.
    + intros p q' Hp. congruence.
    + intros t Ht. by destruct (app_singleton_neq (trades st) t).
    + intros t q' Ht. by destruct (app_singleton_neq (trades st) t).
  - split_and!; [| | |exact Hreenter].
    + intros p' q _ [Hq _]. congruence.
    + done.
    + intros t' q _ [Hq _]. congruence.
  - split_and!; [| | |exact Hreenter]; rewrite Htr.
    + intros p' q' Hp' _. exists t. repeat split; [done|congruence].
    + intros t' ->%app_singleton_inj [?|?]; congruence.
    + intros t' q' ->%app_singleton_inj [Hq' _].
      assert (q' = q) as -> by congruence. done.
Qed.

(** The theorem at bar 16 of the sample series (the signal of candle 46,
    score 70): the bar closes the short position on the reversal and opens a
    long one at the same price. *)
Lemma C1_entries_only_when_flat_witness :
  barSignal exSignals 16 = Some (Sig.mk 46 46 90 70) ∧
  ∀ t, closedOn (barState exSignals exCandles 16) (barState exSignals exCandles 17) t →
    Trade.reason t = signal_reversal →
    ∃ q, openedOn (barState exSignals exCandles 16) (barState exSignals exCandles 17) q
         ∧ Pos.side q = opposite (Trade.side t)
         ∧ Pos.entry q = Trade.exit t ∧ Pos.entryIdx q = Trade.exitIdx t.
Proof.
  split; [vm_compute; reflexivity|].
  apply (C1_entries_only_when_flat exSignals exCandles 16 (Sig.mk 46 46 90 70)).
  vm_compute; reflexivity.
Defined.
(** C1 as stated fails on that bar: it closes the short position (signal
    reversal) and opens a long one. *)
Lemma C1_reversal_bar_reenters :
  ∃ t q,
    closedOn (barState exSignals exCandles 16) (barState exSignals exCandles 17) t
    ∧ Trade.reason t = signal_reversal
    ∧ openedOn (barState exSignals exCandles 16) (barState exSignals exCandles 17) q.
Proof.
  eexists _, _. unfold closedOn, openedOn. vm_compute.
  split; [reflexivity|]. split; [reflexivity|]. split; [reflexivity|discriminate].
Qed.

End Bar.

Section Ledger.
Local Open Scope nat_scope.

(** *** The ledger along a run *)

Lemma LedgerInv_init candles : LedgerInv candles 0 initState.
Proof.
  split; cbn.
  - intros t Ht. by apply elem_of_nil in Ht.
  - constructor.
  - discriminate.
Qed.

Lemma LedgerInv_mono candles b b' st :
  b <= b' → LedgerInv candles b st → LedgerInv candles b' st.
Proof.
  intros Hb [Ht Hs Hp]. split; [|done|].
  - intros t Hin. destruct (Ht t Hin) as (? & ? & ? & ?). repeat split; [done|lia|done|done].
  - intros p Hpos. destruct (Hp p Hpos) as (? & ? & ?). repeat split; [lia|done|done].
Qed.

Lemma sequential_snoc ledger t :
  sequential ledger → (∀ t', t' ∈ ledger → precedes t' t) → sequential (ledger ++ [t]).
Proof.
  intros Hs Hall. apply StronglySorted_app. split; [|split; [done|repeat constructor]].
  intros t1 t2 H1 H2. apply list_elem_of_singleton in H2 as ->. auto.
Qed.

(** A bar whose signal is not older than the bars handled so far keeps the
    ledger ordered. *)
Lemma step_LedgerInv candles b st sig :
  LedgerInv candles b st → b <= Sig.idx sig →
  LedgerInv candles (Sig.idx sig + LOOKFORWARD) (step candles st sig).
Proof.
  intros Hinv Hb. destruct (step_event candles st sig) as [Hev Hnext].
  assert (LOOKFORWARD = 1) as HL by reflexivity.
  destruct Hev as [Hsame|q Hnone Htr Hq Hqi|p t Hp Htr Hnone Hte Htx Hwhy
                  |p t q Hp Htr Hq Hte Htx Hwhy _ _ Hqi].
  - rewrite Hsame. eapply LedgerInv_mono; [|exact Hinv]. lia.
  - destruct Hnext as [[next Hnext]|Hsame]; [|rewrite Hsame in Hq; congruence].
    apply lookup_lt_Some in Hnext. destruct Hinv as [Ht Hs _].
    split; rewrite ?Htr; [| done |].
    + intros t Hin. destruct (Ht t Hin) as (? & ? & ? & ?).
      repeat split; [done|lia|done|done].
    + intros p Hpos. assert (p = q) as -> by congruence. rewrite Hqi.
      repeat split; [lia|done|]. intros t Hin. destruct (Ht t Hin) as (? & ? & ? & ?). lia.
  - destruct Hnext as [[next Hnext]|Hsame];
      [|rewrite Hsame in Hnone; congruence].
    apply lookup_lt_Some in Hnext. destruct Hinv as [Ht Hs Hpos].
    destruct (Hpos p Hp) as (Hpb & Hpl & Hpt).
    split; rewrite ?Htr.
    + intros t' [Hin| ->%list_elem_of_singleton]%elem_of_app.
      * destruct (Ht t' Hin) as (? & ? & ? & ?). repeat split; [done|lia|done|done].
      * rewrite Hte, Htx. repeat split; [lia|lia|done|done].
    + apply sequential_snoc; [done|]. intros t' Hin. unfold precedes.
      rewrite Hte. auto.
    + congruence.
  - destruct Hnext as [[next Hnext]|Hsame].
    2:{ rewrite Hsame in Htr. apply (f_equal length) in Htr.
        rewrite length_app in Htr. cbn in Htr. lia. }
    apply lookup_lt_Some in Hnext. destruct Hinv as [Ht Hs Hpos].
    destruct (Hpos p Hp) as (Hpb & Hpl & Hpt).
    split; rewrite ?Htr.
    + intros t' [Hin| ->%list_elem_of_singleton]%elem_of_app.
      * destruct (Ht t' Hin) as (? & ? & ? & ?). repeat split; [done|lia|done|done].
      * rewrite Hte, Htx. repeat split; [lia|lia|done|congruence].
    + apply sequential_snoc; [done|]. intros t' Hin. unfold precedes.
      rewrite Hte. auto.
    + intros q' Hq'. assert (q' = q) as -> by congruence. rewrite Hqi, Htx.
      repeat split; [lia|done|].
      intros t' [Hin| ->%list_elem_of_singleton]%elem_of_app.
      * destruct (Ht t' Hin) as (? & ? & ? & ?). lia.
      * lia.
Qed.

Lemma loop_LedgerInv candles signals : ∀ b st,
  ascending signals → Forall (λ s, b <= Sig.idx s) signals →
  LedgerInv candles b st →
  ∃ b', LedgerInv candles b' (fold_left (step candles) signals st).
Proof.
  unfold ascending.
  induction signals as [|sig rest IH]; intros b st Hasc Hall Hinv; cbn; [eauto|].
  rewrite fmap_cons in Hasc. apply StronglySorted_cons in Hasc as [Hlt Hasc].
  apply Forall_cons in Hall as [Hb _].
  eapply (IH (Sig.idx sig + LOOKFORWARD)); [done| |by eapply step_LedgerInv].
  rewrite Forall_fmap in Hlt. eapply Forall_impl; [exact Hlt|].
  cbn. unfold LOOKFORWARD. intros; lia.
Qed.

Lemma ascending_take signals n : ascending signals → ascending (take n signals).
Proof.
  unfold ascending. intros H. rewrite <- (take_drop n signals), fmap_app in H.
  by apply StronglySorted_app_1_l in H.
Qed.

Lemma barState_LedgerInv signals candles k :
  ascending signals → ∃ b, LedgerInv candles b (barState signals candles k).
Proof.
  intros Hasc. unfold barState.
  eapply (loop_LedgerInv candles _ 0).
  - by do 2 apply ascending_take.
  - apply Forall_forall. intros; lia.
  - apply LedgerInv_init.
Qed.

Lemma forceClose_trades candles st :
  trades (forceClose candles st) = trades st ∨
  ∃ p lastCandle t, position st = Some p ∧ last candles = Some lastCandle
    ∧ trades (forceClose candles st) = trades st ++ [t]
    ∧ Trade.reason t = end_of_data ∧ Trade.entryIdx t = Pos.entryIdx p
    ∧ Trade.exitIdx t = length candles - 1.
Proof.
  unfold forceClose. destruct (position st) as [p|]; [|by left].
  destruct (last candles) as [lc|]; [|by left].
  right. by eexists p, lc, _.
Qed.

(** A position that is still open after the loop was entered at an existing
    candle, so the forced close finds a last candle. *)
Lemma forceClose_reads_a_candle signals candles p :
  ascending signals → position (runLoop signals candles) = Some p →
  is_Some (last candles).
Proof.
  intros Hasc Hp. rewrite runLoop_barState in Hp.
  destruct (barState_LedgerInv signals candles (length signals) Hasc) as [b [_ _ Hpos]].
  destruct (Hpos p Hp) as (_ & Hlen & _).
  destruct (last candles) eqn:Hlast; [eauto|].
  apply last_None in Hlast. subst. cbn in Hlen. lia.
Qed.

(** C2 (amended).  For signals numbered in ascending order, as the generator
    numbers them: every trade closed by stop-loss, take-profit or signal
    reversal has an exit index strictly greater than its entry index; the
    end-of-data trade exits at the last candle, at or after its entry index;
    the holding periods of the ledger follow one another; and at every bar
    the one open position was entered no earlier than every recorded trade
    was exited, so at most one position is open at any bar. *)
Theorem C2_ledger_order signals candles :
  ascending signals →
  let ledger := Result.trades (runBacktest signals candles) in
  (∀ t, t ∈ ledger → Trade.reason t ≠ end_of_data →
     Trade.entryIdx t < Trade.exitIdx t) ∧
  (∀ t, t ∈ ledger → Trade.reason t = end_of_data →
     Trade.entryIdx t <= Trade.exitIdx t ∧ Trade.exitIdx t = length candles - 1) ∧
  sequential ledger ∧
  (∀ k p t, position (barState signals candles k) = Some p →
     t ∈ trades (barState signals candles k) →
     Trade.exitIdx t <= Pos.entryIdx p).
Proof.
  intros Hasc ledger.
  assert (∀ k p t, position (barState signals candles k) = Some p →
     t ∈ trades (barState signals candles k) →
     Trade.exitIdx t <= Pos.entryIdx p) as Hbars.
  { intros k p t Hp Ht.
    destruct (barState_LedgerInv signals candles k Hasc) as [b [_ _ Hpos]].
    destruct (Hpos p Hp) as (_ & _ & Hall). auto. }
  destruct (barState_LedgerInv signals candles (length signals) Hasc) as [b [Ht Hs Hpos]].
  rewrite <- runLoop_barState in Ht, Hs, Hpos.
  subst ledger. unfold runBacktest. cbn [Result.trades].
  destruct (forceClose_trades candles (runLoop signals candles))
    as [->|(p & lc & t & Hp & _ & -> & Hwhy & Hte & Htx)].
  - split_and!; [| |done|done].
    + intros t Hin _. by destruct (Ht t Hin).
    + intros t Hin Hwhy. destruct (Ht t Hin) as (_ & _ & _ & ?). done.
  - destruct (Hpos p Hp) as (_ & Hlen & Hall).
    split_and!; [| | |done].
    + intros t' [Hin| ->%list_elem_of_singleton]%elem_of_app Hne; [|done].
      by destruct (Ht t' Hin).
    + intros t' [Hin| ->%list_elem_of_singleton]%elem_of_app Hw.
      * destruct (Ht t' Hin) as (_ & _ & _ & ?). done.
      * split; [lia|done].
    + apply sequential_snoc; [done|]. intros t' Hin. unfold precedes.
      rewrite Hte. auto.
Qed.

(** The theorem on the sample series. *)
Lemma C2_ledger_order_witness :
  ascending exSignals ∧ sequential (Result.trades (runBacktest exSignals exCandles)).
Proof.
  assert (ascending exSignals) as H
    by (unfold ascending; apply (bool_decide_unpack _); vm_compute; reflexivity).
  split; [exact H|]. apply (C2_ledger_order exSignals exCandles H).
Defined.

(** C2 as stated fails on the sample series: the last trade is entered at
    the open of the last candle and force-closed at its close, so its exit
    index equals its entry index. *)
Lemma C2_last_bar_entry_exits_on_entry_bar :
  ascending exSignals ∧
  ∃ t, last (Result.trades (runBacktest exSignals exCandles)) = Some t
       ∧ Trade.reason t = end_of_data
       ∧ Trade.entryIdx t = 50 ∧ Trade.exitIdx t = 50
       ∧ ¬ (Trade.entryIdx t < Trade.exitIdx t).
Proof.
  split; [unfold ascending; apply (bool_decide_unpack _); vm_compute; reflexivity|].
  eexists. split; [vm_compute; reflexivity|]. cbn. split_and!; try reflexivity. lia.
Qed.

End Ledger.

Section Drawdown.
Local Open Scope float_scope.

(** *** The drawdown bookkeeping *)

Lemma closeAt_DrawdownInv st p price pnlPct why i :
  DrawdownInv st → DrawdownInv (closeAt st p price pnlPct why i).
Proof.
  unfold DrawdownInv. intros Hinv rest. cbn.
  rewrite map_app, <- app_assoc. cbn. rewrite <- Hinv. reflexivity.
Qed.

Lemma entryCheck_DrawdownInv st sig price :
  DrawdownInv st → DrawdownInv (entryCheck st sig price).
Proof.
  unfold entryCheck. intros Hinv. destruct (position st); [done|].
  repeat case_match; done.
Qed.

Lemma step_DrawdownInv candles st sig :
  DrawdownInv st → DrawdownInv (step candles st sig).
Proof.
  intros Hinv. unfold step. destruct (candles !! _) as [next|]; [|done].
  unfold exitCheck. destruct (position st) as [p|]; [|by apply entryCheck_DrawdownInv].
  repeat case_match; simplify_eq;
    auto using closeAt_DrawdownInv, entryCheck_DrawdownInv.
Qed.

Lemma runLoop_DrawdownInv signals candles : DrawdownInv (runLoop signals candles).
Proof.
  unfold runLoop. generalize (take (length signals - LOOKFORWARD) signals).
  assert (DrawdownInv initState) as Hinit by (intros rest; reflexivity).
  revert Hinit. generalize initState.
  intros st Hst sigs. revert st Hst.
  induction sigs as [|sig sigs IH]; intros st Hst; cbn; [done|].
  apply IH. by apply step_DrawdownInv.
Qed.

(** What the simulator reports: the drawdown over the trades closed inside
    the loop.  The forced close adds its trade, its result and its win or
    loss, but leaves [equity], [peak] and [maxDrawdown] as they were. *)
Lemma reported_drawdown signals candles :
  Stats.maxDrawdown (Result.stats (runBacktest signals candles))
  = maxDrawdownOf (trades (runLoop signals candles)).
Proof.
  unfold runBacktest, maxDrawdownOf. cbn.
  pose proof (runLoop_DrawdownInv signals candles [] ) as H.
  rewrite app_nil_r in H. rewrite <- H. cbn.
  unfold forceClose. repeat case_match; reflexivity.
Qed.

(** C3 (the code departs from it).  On the sample series the ledger is a
    flat reversal, a take-profit of +25 and an end-of-data trade of -50:
    cumulative equity peaks at 25 and ends at -25, a drop of 50, while the
    reported maximum drawdown is 0 (the total and the loss counter do include
    the last trade). *)
Theorem C3_end_of_data_trade_outside_drawdown :
  main exCandles = Report exSignals (runBacktest exSignals exCandles)
  ∧ map (λ t, (Trade.reason t, Trade.pnl t)) (Result.trades (runBacktest exSignals exCandles))
    = [(signal_reversal, 0); (take_profit, 25); (end_of_data, -50)]
  ∧ maxDrawdownOf (Result.trades (runBacktest exSignals exCandles)) = 50
  ∧ Stats.maxDrawdown (Result.stats (runBacktest exSignals exCandles)) = 0
  ∧ Stats.totalPnl (Result.stats (runBacktest exSignals exCandles)) = -25.
Proof. vm_compute. split_and!; reflexivity. Qed.

End Drawdown.

Section Guard.
Local Open Scope float_scope.

(** [std === 0] makes the guard [std > 0] fail. *)
Lemma zero_is_not_positive x : (x =? 0) = true → (0 <? x) = false.
Proof.
  rewrite FloatAxioms.eqb_spec, FloatAxioms.ltb_spec.
  change (Prim2SF 0) with (S754_zero false).
  destruct (Prim2SF x) as [[]|[]| |[] m e]; cbn; congruence.
Qed.

(** When the guard fails, no division takes place and [percentB] is 0.5. *)
Lemma bollingerAt_guard closes i ci :
  (19 <= i)%nat →
  (0 <? windowStd 20 (slice (i + 1 - 20) (i + 1) closes)) = false →
  ∃ bb, bollingerAt 20 closes i ci = Some bb ∧ percentB bb = 0.5.
Proof.
  intros Hi Hstd. unfold bollingerAt.
  destruct (Nat.ltb_spec i (20 - 1)); [lia|].
  change (nat2float 20) with 20. rewrite Hstd. by eexists.
Qed.

(** A window in which every computed deviation from the mean is 0 has a
    computed standard deviation of 0. *)
Lemma zero_deviations_std window :
  Forall (λ x, x - windowMean 20 window = 0) window → windowStd 20 window = 0.
Proof.
  unfold windowStd. generalize (windowMean 20 window). intros sma Hall.
  assert (fold_left (λ s x, s + (x - sma) * (x - sma)) window 0 = 0) as ->; [|reflexivity].
  induction Hall as [|x rest Hx _ IH]; [reflexivity|].
  cbn [fold_left]. rewrite Hx. exact IH.
Qed.

(** At every index with a full 20-bar window whose computed standard
    deviation is zero (as it is when no close of the window deviates from the
    computed window mean), the Bollinger series holds an object and its
    [percentB] is 0.5: the guard [std > 0] fails and the division is not
    evaluated. *)
Lemma zero_std_is_band_neutral closes i :
  (19 <= i < length closes)%nat →
  (windowStd 20 (slice (i + 1 - 20) (i + 1) closes) =? 0) = true
  ∨ Forall (λ x, x - windowMean 20 (slice (i + 1 - 20) (i + 1) closes) = 0)
           (slice (i + 1 - 20) (i + 1) closes) →
  ∃ bb, calcBollingerSeries closes 20 !! i = Some (Some bb) ∧ percentB bb = 0.5.
Proof.
  intros [Hlo Hhi] Hflat.
  assert ((0 <? windowStd 20 (slice (i + 1 - 20) (i + 1) closes)) = false) as Hstd.
  { destruct Hflat as [Hzero|Hdev]; [by apply zero_is_not_positive|].
    by rewrite (zero_deviations_std _ Hdev). }
  destruct (lookup_lt_is_Some_2 closes i Hhi) as [ci Hci].
  destruct (bollingerAt_guard closes i ci Hlo Hstd) as (bb & Hbb & HpB).
  exists bb. split; [|done].
  unfold calcBollingerSeries. by rewrite list_lookup_imap, Hci; cbn; rewrite Hbb.
Qed.

(** C10 (the code departs from it).  The guard [std > 0] tests the computed
    deviation, and equal closes do not always compute to a deviation of 0.
    The binary64 sum of twenty closes of 0.1 is 2.0000000000000004, so the
    computed mean 0.10000000000000002 differs from every close, the computed
    deviation is 1.39e-17, the guard lets the division through and [percentB]
    is 0.25, not 0.5.  Twenty closes of 3100.55 give 0.25 as well, and twenty
    closes of 43250.1 give 0.75; twenty closes of 100, whose sum is exact,
    give 0.5.  (The Bollinger part of the signal score is 0 in all four
    cases.) *)
Theorem C10_equal_closes_pass_the_guard :
  (windowMean 20 (flatWindow 0.1) = 0.10000000000000002
   ∧ (0 <? windowStd 20 (flatWindow 0.1)) = true
   ∧ percentBAt (flatWindow 0.1) 19 = Some 0.25)
  ∧ percentBAt (flatWindow 3100.55) 19 = Some 0.25
  ∧ percentBAt (flatWindow 43250.1) 19 = Some 0.75
  ∧ percentBAt (flatWindow 100) 19 = Some 0.5
  ∧ Forall (λ x, bbPart (calcBollingerSeries (flatWindow x) 20 !! 19%nat) = 0%Z)
           [0.1; 3100.55; 43250.1; 100].
Proof. vm_compute. split_and!; try reflexivity. repeat constructor. Qed.

End Guard.

Section Main.

(** C9.  With fewer than 50 candles [main] stops at the insufficient-data
    warning: no signals are generated and no result is produced. *)
Theorem C9_short_series_is_refused candles :
  (length candles < 50)%nat →
  main candles = InsufficientData ∧ ∀ signals result, main candles ≠ Report signals result.
Proof.
  intros Hlen. unfold main. destruct (Nat.ltb_spec (length candles) 50); [|lia].
  split; [done|]. intros; discriminate.
Qed.

(** The theorem on the first 49 candles of the sample series. *)
Lemma C9_short_series_is_refused_witness :
  (length (take 49 exCandles) < 50)%nat ∧ main (take 49 exCandles) = InsufficientData.
Proof.
  split; [vm_compute; lia|].
  apply (C9_short_series_is_refused (take 49 exCandles)). vm_compute; lia.
Defined.

(** Every candle with a valid time renders its date. *)
Lemma rendersTime_valid candles i :
  Forall (λ bar, validTime (ts bar) = true) candles → (i < length candles)%nat →
  rendersTime candles i = true.
Proof.
  intros Hall Hi. unfold rendersTime.
  destruct (lookup_lt_is_Some_2 candles i Hi) as [bar Hbar]. rewrite Hbar.
  rewrite Forall_lookup in Hall. exact (Hall i bar Hbar).
Qed.

(** On ascending signals and candles with valid times no trade of the
    ledger throws while it is recorded. *)
Lemma ledger_renders signals candles :
  ascending signals → Forall (λ bar, validTime (ts bar) = true) candles →
  runBacktestOrThrow signals candles = Some (runBacktest signals candles).
Proof.
  intros Hasc Hvalid. unfold runBacktestOrThrow.
  assert (forallb (rendersDates candles) (Result.trades (runBacktest signals candles)) = true)
    as ->; [|done].
  unfold runBacktest. cbn [Result.trades].
  destruct (barState_LedgerInv signals candles (length signals) Hasc) as [b Hled].
  rewrite <- runLoop_barState in Hled.
  assert (forallb (rendersDates candles) (trades (runLoop signals candles)) = true) as Hloop.
  { apply forallb_forall. intros t Ht%list_elem_of_In.
    destruct (inv_trades _ _ _ Hled t Ht) as (Hlt & _ & Hlen & Hr).
    unfold rendersDates. rewrite !rendersTime_valid by (done || lia).
    by destruct (Trade.reason t). }
  destruct (forceClose_trades candles (runLoop signals candles))
    as [->|(p & lc & t & Hp & _ & -> & Hr & He & _)]; [done|].
  rewrite forallb_app, Hloop. cbn. unfold rendersDates. rewrite Hr, He.
  destruct (inv_position _ _ _ Hled p Hp) as (_ & Hlen & _).
  by rewrite rendersTime_valid.
Qed.

(** From 50 candles on, all with valid times, the simulation runs, on
    ascending signals. *)
Lemma main_runs candles :
  (50 <= length candles)%nat → Forall (λ bar, validTime (ts bar) = true) candles →
  ∃ signals, generateSignals candles = Some signals
             ∧ main candles = Report signals (runBacktest signals candles)
             ∧ ascending signals.
Proof.
  intros Hlen Hvalid. unfold main. destruct (Nat.ltb_spec (length candles) 50); [lia|].
  rewrite !rendersTime_valid by (done || lia). cbn [andb].
  destruct (generateSignals_ascending candles) as (signals & -> & Hasc).
  exists signals. by rewrite ledger_renders.
Qed.

(** With an invalid time on the first or on the last candle [main] throws
    before it generates a signal. *)
Lemma main_throws candles :
  (50 <= length candles)%nat →
  rendersTime candles 0 = false ∨ rendersTime candles (length candles - 1) = false →
  main candles = Thrown.
Proof.
  intros Hlen Hbad. unfold main. destruct (Nat.ltb_spec (length candles) 50); [lia|].
  destruct Hbad as [-> | ->]; [done|]. by rewrite andb_false_r.
Qed.

End Main.

End BacktestFacts.

(** * Further properties of the scorer *)

Module SignalMoreFacts.
Import JS Signal SignalSpec SignalMore SignalFacts.

Section Range.
Local Open Scope Z_scope.

(** *** The range of the aggregate *)

Lemma roundHundredths_bounded (s w : Z) :
  0 < w → -30 * w <= s <= 30 * w →
  -3000 <= roundHundredths (inject_Z s / inject_Z w) <= 3000.
Proof.
  intros Hw Hs. unfold roundHundredths.
  assert (0 < inject_Z w)%Q as HwQ by (rewrite (Zlt_Qlt 0 w) in Hw; exact Hw).
  assert (inject_Z (-30) <= inject_Z s / inject_Z w)%Q as Hlo.
  { apply Qle_shift_div_l; [done|]. rewrite <- inject_Z_mult, <- Zle_Qle. lia. }
  assert (inject_Z s / inject_Z w <= inject_Z 30)%Q as Hhi.
  { apply Qle_shift_div_r; [done|]. rewrite <- inject_Z_mult, <- Zle_Qle. lia. }
  split.
  - change (-3000) with (Qfloor (inject_Z (-30) * 100 + (1 # 2))).
    apply Qfloor_resp_le, Qplus_le_compat; [|apply Qle_refl].
    apply Qmult_le_compat_r; done.
  - change 3000 with (Qfloor (inject_Z 30 * 100 + (1 # 2))).
    apply Qfloor_resp_le, Qplus_le_compat; [|apply Qle_refl].
    apply Qmult_le_compat_r; done.
Qed.

(** The aggregate of a snapshot is a number of hundredths between -3000
    and 3000. *)
Lemma aggregate_hundredths data :
  ∃ n, -3000 <= n <= 3000 ∧ aggregate (scoreSignals data) = hundredths n.
Proof.
  destruct (reachable_totals _ (scoreSignals_bounded data))
    as (s & w & Ht & _ & _ & Hsw & Hw & _).
  unfold aggregate. rewrite Ht.
  destruct (Z.eqb_spec (5 * w) 0) as [Hz|Hz]; [by exists 0|].
  fold (meanCode (5 * s) (5 * w)). rewrite mean_agrees by lia.
  eexists. split; [|reflexivity]. apply roundHundredths_bounded; lia.
Qed.

Lemma within_all : forallb withinAt (rangeZ (-3000) (Z.to_nat 6001)) = true.
Proof. vm_compute. reflexivity. Qed.

(** X1.  Whatever the snapshot holds, the aggregate of its factor scores is
    a number between -30 and 30 (never NaN): the weighted mean of scores in
    [-30, 30] stays in that range after the division, the rounding to
    hundredths and the second division. *)
Theorem aggregate_within_30 data :
  (-30 <=? aggregate (scoreSignals data))%float = true
  ∧ (aggregate (scoreSignals data) <=? 30)%float = true.
Proof.
  destruct (aggregate_hundredths data) as (n & Hn & ->).
  pose proof within_all as Hall. rewrite forallb_forall in Hall.
  assert (In n (rangeZ (-3000) (Z.to_nat 6001))) as Hin by (apply In_rangeZ; lia).
  apply Hall in Hin. unfold withinAt in Hin. by apply andb_prop in Hin.
Qed.

End Range.

Section Bar.
Local Open Scope float_scope.

(** *** The score bar *)

Lemma clampOk_all : forallb clampOk (rangeZ (-3000) (Z.to_nat 6001)) = true.
Proof. vm_compute. reflexivity. Qed.

Lemma markerOk_all : forallb markerOk (seq 0 (S barWidth)) = true.
Proof. vm_compute. reflexivity. Qed.

(** X19.  On the aggregate of any snapshot the clamp to [-30, 30] in [main]
    changes nothing, and the position computed for the marker is a cell index
    between 0 and 40.  The 40-cell bar then shows exactly one marker, except
    that it shows none when the position is 20 (the centre line is drawn
    there instead) or 40 (one past the last cell, which the top of the range
    reaches). *)
Theorem score_bar_of_the_aggregate data :
  let total := aggregate (scoreSignals data) in
  normalized total = total
  ∧ ∃ k, (k <= 40)%nat ∧ markerPos total = nat2float k
         ∧ markers (scoreBar total)
           = if bool_decide (k = 20%nat ∨ k = 40%nat) then 0%nat else 1%nat.
Proof.
  cbn zeta. destruct (aggregate_hundredths data) as (n & Hn & ->).
  pose proof clampOk_all as Hall. rewrite forallb_forall in Hall.
  assert (In n (rangeZ (-3000) (Z.to_nat 6001))) as Hin by (apply In_rangeZ; lia).
  apply Hall in Hin. unfold clampOk in Hin. apply andb_prop in Hin as [Hnorm Hidx].
  apply FloatAxioms.Leibniz.eqb_spec in Hnorm. split; [done|].
  apply bool_decide_eq_true_1 in Hidx as [k Hk].
  unfold markerIndex in Hk. apply find_some in Hk as [Hk Hpos].
  apply FloatAxioms.Leibniz.eqb_spec in Hpos.
  pose proof markerOk_all as Hmark. rewrite forallb_forall in Hmark.
  specialize (Hmark k Hk). unfold markerOk in Hmark. apply Nat.eqb_eq in Hmark.
  apply in_seq in Hk. unfold barWidth in Hk.
  exists k. split; [lia|]. split; [done|].
  unfold scoreBar. rewrite Hpos, Hmark.
  destruct (Nat.eqb_spec k 20) as [->|H20]; [done|].
  destruct (Nat.eqb_spec k 40) as [->|H40]; [done|].
  rewrite bool_decide_eq_false_2 by (intros [?|?]; done). done.
Qed.

End Bar.

Section Presence.
Local Open Scope float_scope.

(** *** Which factors a snapshot scores *)

Ltac through :=
  unfold scoreSignals;
  rewrite ?scoreLiquidation_other, ?scoreBollinger_other, ?scoreMacd_other,
    ?scoreRsi_other, ?scoreFearGreed_other, ?scoreLongShort_other,
    ?scoreFundingTrend_other, ?scoreFunding_other by done.

Lemma calcBollinger_long candles n :
  (n <= length candles)%nat → is_Some (calcBollinger (Some candles) n).
Proof.
  intros H. unfold calcBollinger. destruct (Nat.ltb_spec (length candles) n); [lia|]. eauto.
Qed.

(** X2.  A factor is scored exactly when its input is there: funding when the
    rate is present; funding trend when the history has three entries or
    more; long/short when the current ratio is present and truthy (not 0, not
    NaN); fear and greed when the index is present; RSI, MACD and Bollinger
    when there are at least 15, 30 and 20 candles; liquidation when both
    sides are present and their sum is positive. *)
Theorem factor_presence data :
  (is_Some (scoreSignals data !! "funding") ↔ is_Some (fundingRate data)) ∧
  (is_Some (scoreSignals data !! "fundingTrend")
     ↔ ∃ h, fundingHistory data = Some h ∧ (3 <= length h)%nat) ∧
  (is_Some (scoreSignals data !! "longShort")
     ↔ ∃ ls, longShortCurrent data = Some ls ∧ truthy ls = true) ∧
  (is_Some (scoreSignals data !! "fearGreed") ↔ is_Some (fearGreed data)) ∧
  (is_Some (scoreSignals data !! "rsi") ↔ candlesAtLeast 15 data = true) ∧
  (is_Some (scoreSignals data !! "macd") ↔ candlesAtLeast 30 data = true) ∧
  (is_Some (scoreSignals data !! "bollinger") ↔ candlesAtLeast 20 data = true) ∧
  (is_Some (scoreSignals data !! "liquidation")
     ↔ ∃ l s, liqLong data = Some l ∧ liqShort data = Some s ∧ (0 <? l + s) = true).
Proof.
  split_and!.
  - through. unfold scoreFunding. destruct (fundingRate data).
    + rewrite lookup_insert_eq. split; eauto.
    + rewrite lookup_empty. split; intros [? ?]; done.
  - through. rewrite ?scoreFunding_other by done. unfold scoreFundingTrend.
    destruct (fundingHistory data) as [h|].
    + destruct (Nat.leb_spec 3 (length h)).
      * rewrite lookup_insert_eq. split; eauto.
      * rewrite scoreFunding_other, lookup_empty by done.
        split; [intros [? ?]; done|]. intros (h' & [= <-] & ?). lia.
    + rewrite scoreFunding_other, lookup_empty by done.
      split; [intros [? ?]; done|]. intros (h' & ? & ?). done.
  - through. unfold scoreLongShort.
    destruct (longShortCurrent data) as [ls|].
    + destruct (truthy ls) eqn:Hls.
      * assert (is_Some (match longShortPrev data with
          | Some prev => if truthy prev
              then <["longShort" := (longShortBand ls + longShortTrend (ls - prev))%Z]>
                     (scoreFundingTrend data (scoreFunding data ∅))
              else <["longShort" := longShortBand ls]>
                     (scoreFundingTrend data (scoreFunding data ∅))
          | None => <["longShort" := longShortBand ls]>
                     (scoreFundingTrend data (scoreFunding data ∅)) end !! "longShort")).
        { repeat case_match; rewrite lookup_insert_eq; eauto. }
        split; eauto.
      * rewrite scoreFundingTrend_other, scoreFunding_other, lookup_empty by done.
        split; [intros [? ?]; done|]. intros (? & [= <-] & ?). congruence.
    + rewrite scoreFundingTrend_other, scoreFunding_other, lookup_empty by done.
      split; [intros [? ?]; done|]. intros (? & ? & ?). done.
  - through. unfold scoreFearGreed. destruct (fearGreed data).
    + rewrite lookup_insert_eq. split; eauto.
    + through. rewrite ?scoreLongShort_other, ?scoreFundingTrend_other,
        ?scoreFunding_other, lookup_empty by done. split; intros [? ?]; done.
  - through. unfold scoreRsi. destruct (candlesAtLeast 15 data).
    + rewrite lookup_insert_eq. split; eauto.
    + rewrite ?scoreFearGreed_other, ?scoreLongShort_other, ?scoreFundingTrend_other,
        ?scoreFunding_other, lookup_empty by done. split; [intros [? ?]; done|done].
  - through. unfold scoreMacd. destruct (candlesAtLeast 30 data).
    + rewrite lookup_insert_eq. split; eauto.
    + rewrite ?scoreRsi_other, ?scoreFearGreed_other, ?scoreLongShort_other,
        ?scoreFundingTrend_other, ?scoreFunding_other, lookup_empty by done.
      split; [intros [? ?]; done|done].
  - through. unfold scoreBollinger. destruct (candlesAtLeast 20 data) eqn:H20.
    + unfold candlesAtLeast in H20. destruct (candles data) as [cs|]; [|done].
      apply Nat.leb_le in H20. destruct (calcBollinger_long cs 20 H20) as [bb ->].
      rewrite lookup_insert_eq. split; eauto.
    + rewrite ?scoreMacd_other, ?scoreRsi_other, ?scoreFearGreed_other,
        ?scoreLongShort_other, ?scoreFundingTrend_other, ?scoreFunding_other,
        lookup_empty by done.
      split; [intros [? ?]; done|done].
  - unfold scoreSignals, scoreLiquidation.
    destruct (liqLong data) as [l|], (liqShort data) as [s|];
      try (rewrite ?scoreBollinger_other, ?scoreMacd_other, ?scoreRsi_other,
             ?scoreFearGreed_other, ?scoreLongShort_other, ?scoreFundingTrend_other,
             ?scoreFunding_other, lookup_empty by done;
           split; [intros [? ?]; done|intros (? & ? & ? & ? & ?); done]).
    destruct (0 <? l + s) eqn:Hpos.
    + rewrite lookup_insert_eq. split; eauto 10.
    + rewrite ?scoreBollinger_other, ?scoreMacd_other, ?scoreRsi_other,
        ?scoreFearGreed_other, ?scoreLongShort_other, ?scoreFundingTrend_other,
        ?scoreFunding_other, lookup_empty by done.
      split; [intros [? ?]; done|]. intros (? & ? & [= <-] & [= <-] & ?). congruence.
Qed.

End Presence.

Section Rsi.
Local Open Scope float_scope.

(** *** RSI without a falling close *)

Lemma rsiSeed_noLoss changes : Forall noLoss changes →
  ∀ gain, ∃ gain', fold_left rsiSeed changes (gain, 0) = (gain', 0).
Proof.
  induction 1 as [|ch rest Hch _ IH]; intros gain; cbn [fold_left]; [eauto|].
  destruct Hch as [Hpos| ->].
  - unfold rsiSeed at 2. rewrite Hpos. apply IH.
  - apply IH.
Qed.

Lemma rsiSmooth_noLoss changes : Forall noLoss changes →
  ∀ gain, ∃ gain', fold_left (rsiSmooth 14) changes (gain, 0) = (gain', 0).
Proof.
  induction 1 as [|ch rest Hch _ IH]; intros gain; cbn [fold_left]; [eauto|].
  destruct Hch as [Hpos| ->].
  - unfold rsiSmooth at 2. rewrite Hpos. apply IH.
  - apply IH.
Qed.

(** X3.  On 15 candles or more whose close never falls from one candle to
    the next (every change is a rise or exactly zero), [calcRSI] returns 100:
    the average loss stays 0 and the guard [avgLoss === 0] answers before any
    division. *)
Theorem rsi_without_losses candles :
  (15 <= length candles)%nat → Forall noLoss (changesOf candles) →
  calcRSI (Some candles) 14 = 100.
Proof.
  intros Hlen Hall. unfold calcRSI.
  destruct (Nat.ltb_spec (length candles) (14 + 1)); [lia|].
  change (nat2float 14) with 14.
  destruct (rsiSeed_noLoss (take 14 (changesOf candles)) (Forall_take _ _ _ Hall) 0)
    as [gain ->].
  destruct (rsiSmooth_noLoss (drop 14 (changesOf candles)) (Forall_drop _ _ _ Hall)
              (gain / 14)) as [gain' Hsmooth].
  change (0 / 14) with 0. rewrite Hsmooth. reflexivity.
Qed.

(** The theorem on fifteen rising closes. *)
Lemma rsi_without_losses_witness :
  (15 <= length (rising 15))%nat ∧ calcRSI (Some (rising 15)) 14 = 100.
Proof.
  assert (Forall noLoss (changesOf (rising 15))) as H.
  { vm_compute. repeat constructor. }
  split; [vm_compute; lia|].
  apply (rsi_without_losses (rising 15)); [vm_compute; lia|exact H].
Defined.

End Rsi.

Section LiveBollinger.
Local Open Scope float_scope.

(** *** The live Bollinger reading on a flat window *)

Lemma sub_zero x : x - 0 = x.
Proof.
  rewrite <- (FloatAxioms.SF2Prim_Prim2SF (x - 0)), FloatAxioms.sub_spec.
  change (Prim2SF 0) with (S754_zero false).
  rewrite <- (FloatAxioms.SF2Prim_Prim2SF x) at 2. f_equal.
  by destruct (Prim2SF x) as [[]|[]| |[] m e].
Qed.

Lemma zero_deviations_variance sma window :
  Forall (λ x, x - sma = 0) window →
  fold_left (λ acc x, acc + (x - sma) * (x - sma)) window 0 = 0.
Proof.
  induction 1 as [|x rest Hx _ IH]; [reflexivity|].
  cbn [fold_left]. rewrite Hx. exact IH.
Qed.

(** X4.  Unlike the backtest series, the live [calcBollinger] has no guard on
    a zero deviation: when no close of the last 20 deviates from their
    computed mean, the bands collapse, [percentB] is 0 / 0 = NaN, and
    [scoreSignals] scores the Bollinger factor 0, since NaN fails all four
    comparisons. *)
Theorem live_bollinger_flat_window candles :
  (20 <= length candles)%nat →
  Forall (λ x, x - sum (liveWindow candles) / 20 = 0) (liveWindow candles) →
  (∃ bb, calcBollinger (Some candles) 20 = Some bb ∧ percentB bb = nan)
  ∧ scoreSignals (mkData None None None None (Some candles) None None None) !! "bollinger"
    = Some 0%Z.
Proof.
  intros Hlen Hflat.
  assert (∃ bb, calcBollinger (Some candles) 20 = Some bb ∧ percentB bb = nan)
    as (bb & Hbb & HpB).
  { unfold calcBollinger. destruct (Nat.ltb_spec (length candles) 20); [lia|].
    change (nat2float 20) with 20. fold (liveWindow candles).
    eexists. split; [reflexivity|]. cbn [percentB].
    rewrite (zero_deviations_variance _ _ Hflat).
    change (PrimFloat.sqrt (0 / 20)) with 0. change (2 * 0) with 0. change (4 * 0) with 0.
    rewrite sub_zero.
    assert (default nan (c <$> last candles) - sum (liveWindow candles) / 20 = 0) as ->;
      [|reflexivity].
    destruct (last candles) as [lc|] eqn:Hlast;
      [|apply last_None in Hlast; subst; cbn in Hlen; lia].
    cbn. rewrite Forall_forall in Hflat. apply Hflat.
    unfold liveWindow. apply list_elem_of_fmap. exists lc. split; [done|].
    apply list_elem_of_lookup. exists 19%nat.
    rewrite lookup_drop. rewrite last_lookup in Hlast. rewrite <- Hlast. f_equal. lia. }
  split; [eauto|].
  unfold scoreSignals, scoreLiquidation, scoreBollinger, candlesAtLeast.
  cbn [Signal.candles liqLong liqShort].
  destruct (Nat.leb_spec 20 (length candles)); [|lia].
  rewrite Hbb, lookup_insert_eq, HpB. reflexivity.
Qed.

(** The theorem on twenty candles that all close at 100. *)
Lemma live_bollinger_flat_window_witness :
  (∃ bb, calcBollinger (Some (take 20 BacktestSpec.exCandles)) 20 = Some bb
         ∧ percentB bb = nan)
  ∧ scoreSignals (mkData None None None None (Some (take 20 BacktestSpec.exCandles))
                    None None None) !! "bollinger"
    = Some 0%Z.
Proof.
  apply (live_bollinger_flat_window (take 20 BacktestSpec.exCandles)).
  - vm_compute. lia.
  - vm_compute. repeat constructor.
Defined.

End LiveBollinger.

End SignalMoreFacts.

(** * Further properties of the backtest *)

Module BacktestMoreFacts.
Import JS Backtest BacktestSpec BacktestMore BacktestFacts.

Section Fetching.

(** *** Fetching the candles *)

Lemma fetchLoop_enough respond fuel needed allCandles after sent :
  (needed <= length allCandles)%nat →
  fetchLoop respond fuel needed allCandles after sent = Some (allCandles, sent).
Proof.
  intros Hn. destruct fuel; cbn [fetchLoop];
    by destruct (Nat.leb_spec needed (length allCandles)); [|lia].
Qed.

(** X20.  Whatever the exchange answers, the loop of [fetchCandles] ends
    within two requests.  With [limit] 0 it makes none.  Otherwise it returns
    the first page reversed when that page has fewer than 300 rows or already
    holds [min(limit, 600)] of them; else it makes a second request, with the
    timestamp of the first page's last row as cursor, and returns the two
    pages concatenated and reversed, without cutting them down to [limit]. *)
Theorem fetchCandles_two_requests respond fuel limit :
  (2 <= fuel)%nat →
  let first := respond 0%nat in
  let second := respond 1%nat in
  fetchCandles respond fuel limit
  = Some (if (limit =? 0)%nat then ([], [])
          else if (length first <? batchSize)%nat || (Nat.min limit 600 <=? length first)%nat
          then (rev first, [None])
          else (rev (first ++ second), [None; secondCursor first])).
Proof.
  intros Hfuel. cbn zeta. unfold fetchCandles.
  destruct fuel as [|[|fuel]]; try lia.
  destruct (Nat.eqb_spec limit 0) as [->|Hlimit]; [done|].
  cbn [fetchLoop length app]. destruct (Nat.leb_spec (Nat.min limit 600) 0); [lia|].
  destruct (last (respond 0%nat)) as [row1|] eqn:Hlast1.
  - destruct (Nat.ltb_spec (length (respond 0%nat)) batchSize) as [Hshort|Hfull];
      cbn [orb fmap option_fmap option_map fst snd]; [done|].
    destruct (Nat.leb_spec (Nat.min limit 600) (length (respond 0%nat))); [done|].
    unfold secondCursor. rewrite Hlast1. cbn [fmap option_fmap option_map default].
    destruct (last (respond 1%nat)) as [row2|] eqn:Hlast2.
    + destruct (Nat.ltb_spec (length (respond 1%nat)) batchSize) as [Hshort2|Hfull2];
        cbn [fmap option_fmap option_map fst snd app]; [done|].
      rewrite fetchLoop_enough; [done|].
      rewrite length_app. unfold batchSize in *. lia.
    + apply last_None in Hlast2. rewrite Hlast2, app_nil_r. done.
  - apply last_None in Hlast1. rewrite Hlast1. done.
Qed.

(** The theorem on an exchange with full pages and the limit of 500 that
    [main] asks for: 600 candles come back. *)
Lemma fetchCandles_two_requests_witness :
  (length ∘ fst) <$> fetchCandles fullPages 2 500 = Some 600%nat.
Proof.
  rewrite (fetchCandles_two_requests fullPages 2 500) by lia. vm_compute. reflexivity.
Defined.

End Fetching.

Section Averages.
Local Open Scope float_scope.

(** *** The EMA and MACD series against the live indicators *)

Lemma emaFrom_lookup k rest : ∀ prev j,
  (j < length rest)%nat →
  emaFrom k prev rest !! j = Some (fold_left (Signal.emaStep k) (take (S j) rest) prev).
Proof.
  induction rest as [|v rest IH]; intros prev j Hj; cbn in Hj; [lia|].
  destruct j as [|j]; cbn; [by rewrite take_0|].
  rewrite IH by lia. reflexivity.
Qed.

Lemma calcEMASeries_lookup values period i :
  (i < length values)%nat →
  calcEMASeries values period !! i = Signal.calcEMA (take (S i) values) period.
Proof.
  intros Hi. destruct values as [|v0 rest]; cbn in Hi; [lia|].
  unfold calcEMASeries, Signal.calcEMA.
  destruct i as [|i]; cbn; [by rewrite take_0|].
  apply emaFrom_lookup. lia.
Qed.

(** X5.  On a non-empty array, entry [i] of the series [calcEMASeries]
    returns is the number the live [calcEMA] of signal.js returns on the first
    [i + 1] values; so the last entry is the live EMA of the whole array. *)
Theorem ema_series_is_ema_of_prefix values period :
  values ≠ [] →
  (∀ i, (i < length values)%nat →
        calcEMASeries values period !! i = Signal.calcEMA (take (S i) values) period)
  ∧ last (calcEMASeries values period) = Signal.calcEMA values period.
Proof.
  intros Hne. split; [intros i Hi; by apply calcEMASeries_lookup|].
  assert (length values ≠ 0%nat) as Hlen
    by (intros H0; by apply length_zero_iff_nil in H0).
  rewrite last_lookup, length_calcEMASeries by done.
  rewrite calcEMASeries_lookup by lia.
  replace (S (pred (length values))) with (length values) by lia.
  by rewrite firstn_all.
Qed.

(** The theorem on four values. *)
Lemma ema_series_is_ema_of_prefix_witness :
  (∀ i, (i < length [1; 2; 4; 8])%nat →
        calcEMASeries [1; 2; 4; 8] 3 !! i = Signal.calcEMA (take (S i) [1; 2; 4; 8]) 3)
  ∧ last (calcEMASeries [1; 2; 4; 8] 3) = Signal.calcEMA [1; 2; 4; 8] 3.
Proof. apply (ema_series_is_ema_of_prefix [1; 2; 4; 8] 3). discriminate. Defined.

Lemma calcMACDSeries_line closes :
  closes ≠ [] →
  macd <$> calcMACDSeries closes
  = zip_with (λ v w, v - w) (calcEMASeries closes 12) (calcEMASeries closes 26).
Proof.
  intros Hne. unfold calcMACDSeries.
  set (line := zip_with _ (calcEMASeries closes 12) _).
  assert (length line = length closes) as Hline.
  { unfold line. rewrite length_zip_with, !length_calcEMASeries by done. lia. }
  assert (line ≠ []) as Hl.
  { intros Hnil. rewrite Hnil in Hline. destruct closes; [done|discriminate]. }
  pose proof (length_calcEMASeries line 9 Hl) as Hsig.
  revert Hsig. generalize (calcEMASeries line 9). clear.
  induction line as [|v line IH]; intros [|s sig] Hsig; try done.
  cbn. f_equal. apply IH. by injection Hsig.
Qed.

Lemma calcMACDSeries_lookup closes i :
  (i < length closes)%nat →
  macd <$> (calcMACDSeries closes !! i) = SignalSpec.macdAt closes (S i).
Proof.
  intros Hi. assert (closes ≠ []) as Hne by (intros ->; cbn in Hi; lia).
  rewrite <- list_lookup_fmap, calcMACDSeries_line by done.
  unfold SignalSpec.macdAt. rewrite lookup_zip_with.
  rewrite !calcEMASeries_lookup by done.
  destruct (Signal.calcEMA (take (S i) closes) 12) as [e12|]; [|done].
  by destruct (Signal.calcEMA (take (S i) closes) 26) as [e26|].
Qed.

(** X6.  The entry [calcMACDSeries] returns for bar [i] holds, as [macd], the
    live EMA(12) minus the live EMA(26) of the closes up to bar [i]; as
    [signal], the EMA(9) of the [macd] values of the series from bar 0 up to
    bar [i] (the live [calcMACD] starts its signal line at the 26th close
    instead); and as [hist] their difference. *)
Theorem macd_series_entry closes i m :
  (i < length closes)%nat → calcMACDSeries closes !! i = Some m →
  SignalSpec.macdAt closes (S i) = Some (macd m)
  ∧ Signal.calcEMA (take (S i) (macd <$> calcMACDSeries closes)) 9 = Some (signal m)
  ∧ hist m = macd m - signal m.
Proof.
  intros Hi Hm. assert (closes ≠ []) as Hne by (intros ->; cbn in Hi; lia).
  split; [by rewrite <- calcMACDSeries_lookup, Hm|].
  rewrite calcMACDSeries_line by done.
  unfold calcMACDSeries in Hm.
  set (line := zip_with _ (calcEMASeries closes 12) _) in *.
  assert (length line = length closes) as Hline.
  { unfold line. rewrite length_zip_with, !length_calcEMASeries by done. lia. }
  rewrite <- calcEMASeries_lookup by lia.
  apply lookup_zip_with_Some in Hm as (v & s & -> & _ & ->). done.
Qed.

(** The theorem on four closes. *)
Lemma macd_series_entry_witness :
  ∃ m, calcMACDSeries [1; 2; 4; 8] !! 2%nat = Some m
       ∧ SignalSpec.macdAt [1; 2; 4; 8] 3 = Some (macd m)
       ∧ Signal.calcEMA (take 3 (macd <$> calcMACDSeries [1; 2; 4; 8])) 9 = Some (signal m)
       ∧ hist m = macd m - signal m.
Proof.
  eexists. split; [vm_compute; reflexivity|].
  apply (macd_series_entry [1; 2; 4; 8] 2); [cbn; lia|vm_compute; reflexivity].
Defined.

Lemma last_macdLineOf closes :
  (26 <= length closes)%nat →
  Some <$> last (Signal.macdLineOf closes) = Some (SignalSpec.macdAt closes (length closes)).
Proof.
  intros Hn. rewrite <- fmap_last, SignalFacts.macdLineOf_as_specified.
  unfold SignalSpec.macdLineSpec. rewrite last_lookup, length_map, length_seq.
  rewrite list_lookup_fmap, lookup_seq_lt by lia. cbn. do 2 f_equal. lia.
Qed.

(** X7.  From 26 candles on, the [macd] the live [calcMACD] of signal.js
    returns is the [macd] of the last entry of the backtest's
    [calcMACDSeries] on the same closes (below 34 candles, where the live
    code returns [macdLine[last] || 0], that value with 0 in place of a 0 or
    NaN). *)
Theorem live_macd_is_last_of_series candles :
  (26 <= length candles)%nat →
  ∃ m, macd <$> last (calcMACDSeries (map c candles)) = Some m
       ∧ macd (Signal.calcMACD (Some candles))
         = if (length candles <? 34)%nat then orElse m 0 else m.
Proof.
  intros Hn. set (closes := map c candles).
  assert (length closes = length candles) as Hlen by apply length_map.
  assert (closes ≠ []) as Hne by (intros H; rewrite H in Hlen; cbn in Hlen; lia).
  pose proof (last_macdLineOf closes ltac:(lia)) as Hlast.
  pose proof (calcMACDSeries_lookup closes (pred (length closes)) ltac:(lia)) as Hser.
  replace (S (pred (length closes))) with (length closes) in Hser by lia.
  rewrite <- (length_calcMACDSeries closes Hne) in Hser at 1. rewrite <- last_lookup in Hser.
  destruct (last (Signal.macdLineOf closes)) as [m|] eqn:Hm; [|done].
  cbn in Hlast. injection Hlast as Hlast. rewrite <- Hlast in Hser.
  exists m. split; [done|].
  pose proof (SignalFacts.length_macdLineOf closes) as Hline.
  unfold Signal.calcMACD. destruct (Nat.ltb_spec (length candles) 26); [lia|].
  fold closes. rewrite Hm.
  destruct (Nat.ltb_spec (length (Signal.macdLineOf closes)) 9);
    destruct (Nat.ltb_spec (length candles) 34); try lia; [done|].
  destruct (Signal.macdLineOf closes); [cbn in *; lia|done].
Qed.

(** The theorem on forty rising candles. *)
Lemma live_macd_is_last_of_series_witness :
  ∃ m, macd <$> last (calcMACDSeries (map c (SignalSpec.rising 40))) = Some m
       ∧ macd (Signal.calcMACD (Some (SignalSpec.rising 40)))
         = if (length (SignalSpec.rising 40) <? 34)%nat then orElse m 0 else m.
Proof. apply (live_macd_is_last_of_series (SignalSpec.rising 40)). vm_compute; lia. Defined.

End Averages.

Section Bands.
Local Open Scope float_scope.

(** *** The Bollinger series against the live reading *)

Lemma live_window_is_slice candles i :
  (19 <= i < length candles)%nat →
  SignalMore.liveWindow (take (S i) candles) = slice (i + 1 - 20) (i + 1) (map c candles).
Proof.
  intros Hi. unfold SignalMore.liveWindow, slice.
  rewrite length_take, Nat.min_l by lia.
  rewrite <- fmap_drop, <- fmap_take. f_equal.
  replace (i + 1 - (i + 1 - 20))%nat with 20%nat by lia.
  rewrite take_drop_commute. f_equal; [lia|]. f_equal. lia.
Qed.

(** X8.  [calcBollingerSeries] yields [null] for the first 19 bars.  From bar
    19 on its entry has the bands of the live [calcBollinger] of signal.js on
    the candles up to that bar, and the same [percentB] whenever the window's
    deviation is positive; otherwise the series answers 0.5 where the live
    code divides by zero. *)
Theorem bollinger_series_shape candles i :
  (i < length candles)%nat →
  if (i <? 19)%nat
  then calcBollingerSeries (map c candles) 20 !! i = Some None
  else ∃ bb live,
      calcBollingerSeries (map c candles) 20 !! i = Some (Some bb)
      ∧ Signal.calcBollinger (Some (take (S i) candles)) 20 = Some live
      ∧ upper bb = upper live ∧ middle bb = middle live ∧ lower bb = lower live
      ∧ percentB bb
        = if 0 <? windowStd 20 (slice (i + 1 - 20) (i + 1) (map c candles))
          then percentB live else 0.5.
Proof.
  intros Hi.
  destruct (lookup_lt_is_Some_2 candles i Hi) as [bar Hbar].
  unfold calcBollingerSeries. rewrite list_lookup_imap, list_lookup_fmap, Hbar.
  cbn [fmap option_fmap option_map].
  unfold bollingerAt. change (20 - 1)%nat with 19%nat.
  destruct (Nat.ltb_spec i 19) as [Hlt|Hge]; [done|].
  change (nat2float 20) with 20.
  unfold Signal.calcBollinger.
  rewrite length_take, Nat.min_l by lia.
  destruct (Nat.ltb_spec (S i) 20); [lia|].
  change (nat2float 20) with 20.
  pose proof (live_window_is_slice candles i ltac:(lia)) as Hw.
  unfold SignalMore.liveWindow in Hw. rewrite length_take, Nat.min_l in Hw by lia.
  rewrite Hw.
  assert (default nan (c <$> last (take (S i) candles)) = c bar) as ->.
  { rewrite last_lookup, length_take, Nat.min_l by lia. cbn.
    rewrite lookup_take_lt by lia. by rewrite Hbar. }
  eexists _, _. split; [reflexivity|]. split; [reflexivity|]. cbn.
  split_and!; reflexivity.
Qed.

(** The theorem on bar 25 of thirty rising candles. *)
Lemma bollinger_series_shape_witness :
  ∃ bb live,
    calcBollingerSeries (map c (SignalSpec.rising 30)) 20 !! 25%nat = Some (Some bb)
    ∧ Signal.calcBollinger (Some (take 26 (SignalSpec.rising 30))) 20 = Some live
    ∧ upper bb = upper live ∧ middle bb = middle live ∧ lower bb = lower live
    ∧ percentB bb
      = if 0 <? windowStd 20 (slice (25 + 1 - 20) (25 + 1) (map c (SignalSpec.rising 30)))
        then percentB live else 0.5.
Proof. apply (bollinger_series_shape (SignalSpec.rising 30) 25). vm_compute; lia. Defined.

End Bands.

Section Rsi.
Local Open Scope float_scope.

(** *** The RSI series against the live RSI *)

Lemma rsiPush_smooth p g l series ch :
  rsiPush p (g, l, series) ch
  = ((Signal.rsiSmooth p (g, l) ch).1, (Signal.rsiSmooth p (g, l) ch).2,
     series ++ [Some (rsiValue (Signal.rsiSmooth p (g, l) ch).1
                               (Signal.rsiSmooth p (g, l) ch).2)]).
Proof. unfold rsiPush, Signal.rsiSmooth. by destruct (0 <? ch). Qed.

Lemma rsiPush_fold p changes : ∀ g l series,
  fold_left (rsiPush p) changes (g, l, series)
  = ((fold_left (Signal.rsiSmooth p) changes (g, l)).1,
     (fold_left (Signal.rsiSmooth p) changes (g, l)).2,
     series ++ map (λ j, Some (smoothed p (g, l) (take (S j) changes)))
                   (seq 0 (length changes))).
Proof.
  induction changes as [|ch rest IH]; intros g l series.
  - cbn. by rewrite app_nil_r.
  - cbn [fold_left]. rewrite rsiPush_smooth.
    destruct (Signal.rsiSmooth p (g, l) ch) as [g1 l1] eqn:E. cbn [fst snd].
    rewrite IH. f_equal. rewrite <- app_assoc. f_equal.
    cbn [length seq map app]. f_equal.
    + unfold smoothed. cbn [take fold_left]. by rewrite E.
    + rewrite <- fmap_S_seq, <- list_fmap_compose. apply list_fmap_ext.
      intros _ j _. unfold compose, smoothed. cbn [take fold_left]. by rewrite E.
Qed.

Lemma changesOf_closes candles :
  Signal.changesOf candles = changesOf (map c candles).
Proof.
  unfold Signal.changesOf, changesOf.
  destruct candles as [|x rest]; [done|]. cbn [tail map].
  revert x. induction rest as [|y rest IH]; intros x; [done|].
  cbn. f_equal. apply IH.
Qed.

Lemma changesOf_take candles i :
  Signal.changesOf (take i candles) = take (i - 1) (Signal.changesOf candles).
Proof.
  unfold Signal.changesOf.
  destruct i as [|i]; [by destruct candles|].
  rewrite Nat.sub_1_r. cbn [pred].
  destruct candles as [|x rest]; [cbn; by rewrite take_nil|]. cbn [take tail].
  revert x i. induction rest as [|y rest IH]; intros x i; [by destruct i|].
  destruct i as [|i]; [done|]. cbn. f_equal. apply IH.
Qed.

Lemma length_changesOf candles : length (Signal.changesOf candles) = (length candles - 1)%nat.
Proof.
  unfold Signal.changesOf. rewrite length_zip_with.
  destruct candles; cbn [tail length]; lia.
Qed.

(** X9.  On 15 closes or more the RSI series of backtest.js is one entry
    longer than the closes, its first 15 entries are [null], and its entry
    [i], for [i] from 15 up to the number of closes, is the live [calcRSI] of
    signal.js on the first [i] candles: the entry read at bar [i] is the RSI
    as of bar [i - 1]. *)
Theorem rsi_series_lags_one_bar candles :
  (15 <= length candles)%nat →
  ∃ series, calcRSI (map c candles) 14 = Some series
    ∧ length series = S (length candles)
    ∧ (∀ i, (i < 15)%nat → series !! i = Some None)
    ∧ (∀ i, (15 <= i <= length candles)%nat →
         series !! i = Some (Some (Signal.calcRSI (Some (take i candles)) 14))).
Proof.
  intros Hn. unfold calcRSI. rewrite length_map.
  destruct (Nat.ltb_spec (length candles) (14 + 1)); [lia|].
  fold (changesOf (map c candles)). rewrite <- changesOf_closes.
  set (changes := Signal.changesOf candles).
  assert (length changes = (length candles - 1)%nat) as Hlen by apply length_changesOf.
  destruct (fold_left rsiSeed (take 14 changes) (0, 0)) as [g0 l0] eqn:Eseed.
  rewrite rsiPush_fold. cbn [snd]. eexists. split; [reflexivity|].
  split_and!.
  - rewrite !length_app, length_map, length_seq, length_replicate, length_drop. cbn. lia.
  - intros i Hi. rewrite <- app_assoc, lookup_app_l by (rewrite length_replicate; lia).
    rewrite lookup_replicate_2 by lia. done.
  - intros i Hi.
    assert (Signal.calcRSI (Some (take i candles)) 14
            = smoothed (nat2float 14) (g0 / nat2float 14, l0 / nat2float 14)
                (take (i - 15) (drop 14 changes))) as ->.
    { unfold Signal.calcRSI. rewrite length_take, Nat.min_l by lia.
      destruct (Nat.ltb_spec i (14 + 1)); [lia|].
      rewrite changesOf_take. fold changes.
      rewrite take_take, Nat.min_l by lia.
      change Signal.rsiSeed with rsiSeed. rewrite Eseed.
      rewrite take_drop_commute.
      replace (14 + (i - 15))%nat with (i - 1)%nat by lia.
      unfold smoothed.
      by destruct (fold_left _ (drop 14 (take (i - 1) changes)) _). }
    rewrite <- app_assoc.
    rewrite lookup_app_r by (rewrite length_replicate; lia).
    rewrite length_replicate.
    destruct (decide (i = 15%nat)) as [->|Hne].
    { cbn. unfold smoothed. by rewrite take_0. }
    replace (i - (14 + 1))%nat with (S (i - 16)) by lia.
    cbn [app]. rewrite lookup_cons.
    rewrite list_lookup_fmap, lookup_seq_lt by (rewrite length_drop; lia).
    cbn [fmap option_fmap option_map].
    replace (S (0 + (i - 16))) with (i - 15)%nat by lia. done.
Qed.

(** The theorem on twenty rising candles. *)
Lemma rsi_series_lags_one_bar_witness :
  ∃ series, calcRSI (map c (SignalSpec.rising 20)) 14 = Some series
    ∧ length series = S (length (SignalSpec.rising 20))
    ∧ (∀ i, (i < 15)%nat → series !! i = Some None)
    ∧ (∀ i, (15 <= i <= length (SignalSpec.rising 20))%nat →
         series !! i = Some (Some (Signal.calcRSI (Some (take i (SignalSpec.rising 20))) 14))).
Proof. apply (rsi_series_lags_one_bar (SignalSpec.rising 20)). vm_compute. lia. Defined.

End Rsi.

Section Signals.
Local Open Scope Z_scope.

(** *** What the generator emits *)

Ltac divides n := repeat case_match; simplify_eq; by apply (Z.mod_divide _ n).

Lemma rsiPart_fives r : (5 | rsiPart r).
Proof. unfold rsiPart. divides 5. Qed.

Lemma macdPart_fives m : (5 | macdPart m).
Proof. unfold macdPart. divides 5. Qed.

Lemma crossPart_fives p m : (5 | crossPart p m).
Proof. unfold crossPart. divides 5. Qed.

Lemma bbPart_fives b : (5 | bbPart b).
Proof. unfold bbPart. divides 5. Qed.

Lemma trendPart_fives closes i t : trendPart closes i = Some t → (5 | t).
Proof.
  unfold trendPart. intros H. destruct (50 <=? i)%nat; [|injection H as <-; by exists 0].
  destruct (sum1 (slice (i - 19) _ _)); cbn in H; [|done].
  destruct (sum1 _); cbn in H; [|done].
  injection H as <-. divides 5.
Qed.

Lemma rawScore_fives closes rsiSeries macdSeries bbSeries i raw :
  rawScore closes rsiSeries macdSeries bbSeries i = Some raw → (5 | raw).
Proof.
  unfold rawScore. intros H.
  destruct (macdSeries !! i) as [m|]; cbn in H; [|done].
  destruct (if (0 <? i)%nat then _ else _) as [cross|] eqn:Hcross; cbn in H; [|done].
  destruct (trendPart closes i) as [trend|] eqn:Htrend; cbn in H; [|done].
  injection H as <-.
  assert ((5 | cross)) as Hc.
  { destruct (0 <? i)%nat; [|injection Hcross as <-; by exists 0].
    destruct (macdSeries !! _); cbn in Hcross; [|done].
    injection Hcross as <-. apply crossPart_fives. }
  repeat apply Z.divide_add_r;
    eauto using rsiPart_fives, macdPart_fives, bbPart_fives, trendPart_fives.
Qed.

Lemma normalize_tens raw : (5 | raw) → (10 | Z.max (-100) (Z.min 100 (raw * 2))).
Proof.
  intros [k ->].
  destruct (Z.max_spec (-100) (Z.min 100 (k * 5 * 2))) as [[_ ->]|[_ ->]];
    [|by exists (-10)].
  destruct (Z.min_spec 100 (k * 5 * 2)) as [[_ ->]|[_ ->]]; [by exists 10|].
  exists k. lia.
Qed.

(** X10.  Every signal [generateSignals] returns carries the open time and
    the close of the candle at its own index, and its score is a multiple
    of 10. *)
Theorem signal_carries_its_candle candles signals s :
  generateSignals candles = Some signals → s ∈ signals →
  ∃ bar, candles !! Sig.idx s = Some bar ∧ Sig.ts s = ts bar ∧ Sig.price s = c bar
         ∧ (10 | Sig.score s).
Proof.
  intros Hgen Hin. destruct (generateSignals_emits candles) as (signals' & Hgen' & Hall).
  rewrite Hgen in Hgen'. injection Hgen' as <-.
  apply list_elem_of_lookup in Hin as [k Hk].
  destruct (Forall2_lookup_r _ _ _ _ _ Hall Hk)
    as (i & _ & rs & raw & bar & _ & Hraw & Hbar & ->).
  exists bar. cbn. split_and!; try done.
  eapply normalize_tens, rawScore_fives, Hraw.
Qed.

(** The theorem on the first signal of the sample series. *)
Lemma signal_carries_its_candle_witness :
  ∃ s, exSignals !! 0%nat = Some s ∧
  ∃ bar, exCandles !! Sig.idx s = Some bar ∧ Sig.ts s = ts bar ∧ Sig.price s = c bar
         ∧ (10 | Sig.score s).
Proof.
  eexists. split; [vm_compute; reflexivity|].
  apply (signal_carries_its_candle exCandles exSignals); [vm_compute; reflexivity|].
  apply list_elem_of_lookup. exists 0%nat. vm_compute. reflexivity.
Defined.

(** X11.  The simulator's guard [if (!nextCandle) continue] never fires on
    the signals of [generateSignals]: every signal the loop handles (all but
    the last) is followed by a candle. *)
Theorem generated_signals_have_a_next_candle candles signals :
  generateSignals candles = Some signals →
  Forall (λ s, is_Some (candles !! (Sig.idx s + LOOKFORWARD)%nat)) (acted signals).
Proof.
  intros Hgen. destruct (generateSignals_emits candles) as (signals' & Hgen' & Hall).
  rewrite Hgen in Hgen'. injection Hgen' as <-.
  pose proof (emitted_idx _ _ _ _ Hall) as Hidx.
  assert (length signals = (length candles - 30)%nat) as Hlen.
  { apply (f_equal length) in Hidx. by rewrite length_fmap, length_seq in Hidx. }
  apply Forall_lookup. intros k s Hk. unfold acted in Hk.
  assert (LOOKFORWARD = 1%nat) as HL by reflexivity.
  apply lookup_take_Some in Hk as [Hk Hlt].
  assert ((Sig.idx <$> signals) !! k = Some (Sig.idx s)) as Hs
    by (by rewrite list_lookup_fmap, Hk).
  rewrite Hidx in Hs. apply lookup_seq in Hs as [Hs _].
  apply lookup_lt_is_Some_2. lia.
Qed.

(** The theorem on the sample series. *)
Lemma generated_signals_have_a_next_candle_witness :
  Forall (λ s, is_Some (exCandles !! (Sig.idx s + LOOKFORWARD)%nat)) (acted exSignals).
Proof.
  apply (generated_signals_have_a_next_candle exCandles exSignals). vm_compute. reflexivity.
Defined.

End Signals.

Section Books.
Local Open Scope float_scope.

(** *** The simulator's books *)

Lemma sumPnl_snoc ledger t : sumPnl (ledger ++ [t]) = sumPnl ledger + Trade.pnl t.
Proof. unfold sumPnl. by rewrite map_app, fold_left_app. Qed.

Lemma filter_won_snoc (b : bool) ledger t :
  length (filter (λ t, won t = b) (ledger ++ [t]))
  = if bool_decide (won t = b) then S (length (filter (λ t, won t = b) ledger))
    else length (filter (λ t, won t = b) ledger).
Proof.
  rewrite filter_app, length_app, filter_cons, filter_nil.
  case_bool_decide; case_decide; try done; cbn; lia.
Qed.

Lemma won_or_lost ledger :
  (length (filter (λ t, won t = true) ledger)
   + length (filter (λ t, won t = false) ledger))%nat = length ledger.
Proof.
  induction ledger as [|t ledger IH]; [done|].
  rewrite !filter_cons. destruct (won t); repeat case_decide; try done; cbn [length]; lia.
Qed.

Lemma pnlOf_position p price : pnlPctOf p price * 100 = pnlOf (Pos.side p) (Pos.entry p) price.
Proof. unfold pnlPctOf, pnlOf. by destruct (Pos.side p). Qed.

Lemma BooksInv_init candles : BooksInv candles initState.
Proof. split; done. Qed.

Lemma closeAt_BooksInv candles st p next why i :
  BooksInv candles st → position st = Some p →
  candles !! (i + LOOKFORWARD)%nat = Some next → why ≠ end_of_data →
  BooksInv candles (closeAt st p (o next) (pnlPctOf p (o next)) why i).
Proof.
  intros [Hw Hl Ht He Htr Hpos] Hp Hnext Hwhy.
  destruct (Hpos p Hp) as (ebar & Hebar & Hentry).
  split; unfold closeAt, settle;
    cbn [trades wins losses totalPnl equity position maxDrawdown peak].
  - rewrite filter_won_snoc. unfold won at 1. cbn. rewrite Hw.
    destruct (0 <? _); by case_bool_decide.
  - rewrite filter_won_snoc. unfold won at 1. cbn. rewrite Hl.
    destruct (0 <? _); by case_bool_decide.
  - by rewrite sumPnl_snoc, Ht.
  - by rewrite sumPnl_snoc, He.
  - apply Forall_app. split; [done|]. constructor; [|constructor].
    split_and!.
    + unfold executedOn. cbn. split_and!.
      * by exists ebar.
      * exists next. split; [done|]. by destruct why.
      * apply pnlOf_position.
    + done.
    + unfold heldBars. cbn. assert (LOOKFORWARD = 1%nat) as -> by reflexivity.
      destruct why; try done; lia.
  - done.
Qed.

Lemma entryCheck_BooksInv candles st sig next :
  BooksInv candles st → candles !! (Sig.idx sig + LOOKFORWARD)%nat = Some next →
  BooksInv candles (entryCheck st sig (o next)).
Proof.
  intros Hinv Hnext. unfold entryCheck.
  destruct (position st) eqn:Hp; [done|].
  destruct Hinv as [Hw Hl Ht He Htr Hpos].
  repeat case_match; try (split; done);
    (split; cbn; try done; intros q [= <-]; cbn; by exists next).
Qed.

Lemma step_BooksInv candles st sig :
  BooksInv candles st → BooksInv candles (step candles st sig).
Proof.
  intros Hinv. unfold step.
  destruct (candles !! _) as [next|] eqn:Hnext; [|done].
  unfold exitCheck. destruct (position st) as [p|] eqn:Hp;
    [|by apply entryCheck_BooksInv].
  repeat case_match; simplify_eq;
    try apply entryCheck_BooksInv; try apply closeAt_BooksInv; try done.
Qed.

Lemma runLoop_BooksInv signals candles : BooksInv candles (runLoop signals candles).
Proof.
  unfold runLoop. generalize (take (length signals - LOOKFORWARD) signals).
  pose proof (BooksInv_init candles) as Hinit. revert Hinit. generalize initState.
  intros st Hst sigs. revert st Hst.
  induction sigs as [|sig sigs IH]; intros st Hst; cbn; [done|].
  apply IH. by apply step_BooksInv.
Qed.

Lemma position_reads_last candles st p :
  BooksInv candles st → position st = Some p → is_Some (last candles).
Proof.
  intros Hinv Hp. destruct (books_position _ _ Hinv p Hp) as (bar & Hbar & _).
  destruct (last candles) eqn:Hlast; [eauto|].
  apply last_None in Hlast. by subst.
Qed.

(** The two ways the forced close can go. *)
Lemma forceClose_cases candles st :
  BooksInv candles st →
  (position st = None ∧ forceClose candles st = st)
  ∨ ∃ p lastCandle,
      position st = Some p ∧ last candles = Some lastCandle
      ∧ forceClose candles st
        = mkState
            (trades st ++ [Trade.mk (Pos.side p) (Pos.entry p) (c lastCandle)
                             (pnlPctOf p (c lastCandle) * 100) end_of_data
                             (Pos.entryIdx p) (length candles - 1)
                             (Z.of_nat (length candles) - 1 - Z.of_nat (Pos.entryIdx p))])
            (position st) (totalPnl st + pnlPctOf p (c lastCandle) * 100)
            (if 0 <? pnlPctOf p (c lastCandle) * 100 then S (wins st) else wins st)
            (if 0 <? pnlPctOf p (c lastCandle) * 100 then losses st else S (losses st))
            (maxDrawdown st) (peak st) (equity st).
Proof.
  intros Hinv. unfold forceClose. destruct (position st) as [p|] eqn:Hp; [|by left].
  destruct (position_reads_last candles st p Hinv Hp) as [lc Hlc].
  rewrite Hlc. right. by exists p, lc.
Qed.

(** X12.  The statistics [runBacktest] reports agree with the ledger it
    returns, the forced end-of-data close included: [wins] is the number of
    trades whose result is positive, [losses] the number of all others,
    [totalTrades] the length of the ledger, and [totalPnl] the sum of the
    results added in ledger order. *)
Theorem books_balance signals candles :
  let result := runBacktest signals candles in
  let ledger := Result.trades result in
  Stats.wins (Result.stats result) = length (filter (λ t, won t = true) ledger)
  ∧ Stats.losses (Result.stats result) = length (filter (λ t, won t = false) ledger)
  ∧ Stats.totalTrades (Result.stats result) = length ledger
  ∧ Stats.totalPnl (Result.stats result) = sumPnl ledger.
Proof.
  cbn zeta. unfold runBacktest. cbn [Result.trades Result.stats Stats.wins Stats.losses
    Stats.totalTrades Stats.totalPnl].
  pose proof (runLoop_BooksInv signals candles) as Hinv.
  assert (∀ st, wins st = length (filter (λ t, won t = true) (trades st)) →
                losses st = length (filter (λ t, won t = false) (trades st)) →
                totalPnl st = sumPnl (trades st) →
                wins st = length (filter (λ t, won t = true) (trades st))
                ∧ losses st = length (filter (λ t, won t = false) (trades st))
                ∧ (wins st + losses st)%nat = length (trades st)
                ∧ totalPnl st = sumPnl (trades st)) as Hgoal.
  { intros st Hw Hl Ht. split_and!; try done. rewrite Hw, Hl. apply won_or_lost. }
  destruct (forceClose_cases candles _ Hinv) as [[_ ->]|(p & lc & Hp & Hlc & ->)].
  - destruct Hinv. by apply Hgoal.
  - destruct Hinv as [Hw Hl Ht _ _ _].
    apply Hgoal; cbn [trades wins losses totalPnl equity position maxDrawdown peak].
    + rewrite filter_won_snoc. unfold won at 1. cbn. rewrite Hw.
      destruct (0 <? _); by case_bool_decide.
    + rewrite filter_won_snoc. unfold won at 1. cbn. rewrite Hl.
      destruct (0 <? _); by case_bool_decide.
    + by rewrite sumPnl_snoc, Ht.
Qed.

(** X13.  Every trade in the ledger agrees with the candles: its entry price
    is the open of its entry candle; its exit price is the open of its exit
    candle, or the close of the last candle for the end-of-data trade; its
    result is the percentage its side and these two prices give; and
    [holdBars] is exit index minus entry index for the end-of-data trade and
    one less than that for every other trade. *)
Theorem trades_follow_the_candles signals candles :
  Forall (λ t, executedOn candles t ∧ Trade.holdBars t = heldBars t)
         (Result.trades (runBacktest signals candles)).
Proof.
  unfold runBacktest. cbn [Result.trades].
  pose proof (runLoop_BooksInv signals candles) as Hinv.
  assert (Forall (λ t, executedOn candles t ∧ Trade.holdBars t = heldBars t)
            (trades (runLoop signals candles))) as Hloop.
  { eapply Forall_impl; [apply (books_trades _ _ Hinv)|]. by intros t (? & _ & ?). }
  destruct (forceClose_cases candles _ Hinv) as [[_ ->]|(p & lc & Hp & Hlc & ->)]; [done|].
  cbn. apply Forall_app. split; [done|]. constructor; [|constructor].
  destruct (books_position _ _ Hinv p Hp) as (ebar & Hebar & Hentry).
  assert (length candles ≠ 0%nat) as Hlen.
  { intros H0. apply length_zero_iff_nil in H0. by subst. }
  split.
  - unfold executedOn. cbn. split_and!.
    + by exists ebar.
    + exists lc. split; [|done]. rewrite last_lookup in Hlc.
      by replace (length candles - 1)%nat with (pred (length candles)) by lia.
    + apply pnlOf_position.
  - unfold heldBars. cbn. lia.
Qed.

(** X14.  A trade closed for end of data can only be the last entry of the
    ledger: every trade before it was closed inside the loop, by stop-loss,
    take-profit or signal reversal. *)
Theorem end_of_data_is_last signals candles i t :
  Result.trades (runBacktest signals candles) !! i = Some t →
  Trade.reason t = end_of_data →
  S i = length (Result.trades (runBacktest signals candles)).
Proof.
  unfold runBacktest. cbn [Result.trades].
  pose proof (runLoop_BooksInv signals candles) as Hinv.
  assert (∀ j u, trades (runLoop signals candles) !! j = Some u → Trade.reason u ≠ end_of_data)
    as Hloop.
  { intros j u Hu. pose proof (books_trades _ _ Hinv) as Hall.
    rewrite Forall_lookup in Hall. by destruct (Hall j u Hu) as (_ & ? & _). }
  destruct (forceClose_cases candles _ Hinv) as [[_ ->]|(p & lc & Hp & Hlc & ->)].
  - intros Ht Hr. by destruct (Hloop i t Ht).
  - cbn. intros Ht Hr. apply lookup_app_Some in Ht as [Ht|[Hge Ht]].
    + by destruct (Hloop i t Ht).
    + apply list_lookup_singleton_Some in Ht as [Hi _].
      rewrite length_app. cbn. lia.
Qed.

(** The theorem on the sample series, whose third trade is the end-of-data
    one. *)
Lemma end_of_data_is_last_witness :
  S 2 = length (Result.trades (runBacktest exSignals exCandles)).
Proof.
  eapply (end_of_data_is_last exSignals exCandles 2); vm_compute; reflexivity.
Defined.

Lemma step_idle candles st sig :
  qualifies candles sig = false → position st = None → step candles st sig = st.
Proof.
  unfold qualifies, step. intros Hq Hp.
  destruct (candles !! _) as [next|]; [|done].
  rewrite bool_decide_eq_true_2 in Hq by eauto. rewrite andb_true_l in Hq.
  apply orb_false_elim in Hq as [Hlong Hshort].
  unfold exitCheck. rewrite Hp. cbn beta iota zeta.
  unfold entryCheck. by rewrite Hp, Hlong, Hshort.
Qed.

Lemma step_enters candles st sig :
  qualifies candles sig = true → position st = None →
  position (step candles st sig) ≠ None.
Proof.
  unfold qualifies, step. intros Hq Hp.
  apply andb_prop in Hq as [Hnext Hq]. apply bool_decide_eq_true_1 in Hnext as [next ->].
  unfold exitCheck. rewrite Hp. cbn beta iota zeta.
  unfold entryCheck. rewrite Hp.
  apply orb_prop in Hq. destruct (ENTRY_THRESHOLD <=? Sig.score sig)%Z; [done|].
  destruct Hq as [?| ->]; done.
Qed.

Lemma step_busy candles st sig : busy st → busy (step candles st sig).
Proof.
  intros Hbusy.
  destruct (step_event candles st sig)
    as [[Hsame|q Hp Ht Hq _|p t _ Ht _ _ _ _|p t q _ Ht _ _ _ _ _ _ _] _].
  - by rewrite Hsame.
  - left. by rewrite Hq.
  - right. rewrite Ht. by destruct (trades st).
  - right. rewrite Ht. by destruct (trades st).
Qed.

Lemma loop_busy candles sigs : ∀ st, busy st → busy (fold_left (step candles) sigs st).
Proof.
  induction sigs as [|sig sigs IH]; intros st Hst; cbn; [done|].
  by apply IH, step_busy.
Qed.

Lemma loop_idle candles sigs : ∀ st,
  position st = None →
  if forallb (λ s, negb (qualifies candles s)) sigs
  then fold_left (step candles) sigs st = st
  else busy (fold_left (step candles) sigs st).
Proof.
  induction sigs as [|sig sigs IH]; intros st Hp; cbn [forallb fold_left]; [done|].
  destruct (qualifies candles sig) eqn:Hq; cbn [negb andb].
  - apply loop_busy. left. by apply step_enters.
  - rewrite step_idle by done. by apply IH.
Qed.

(** X15.  The ledger [runBacktest] returns is empty exactly when no signal
    the loop handles is followed by a candle and scores 20 or more, or -20 or
    less: the first such signal opens a position, and an open position always
    ends in the ledger, closed in the loop or at the end of the data. *)
Theorem trades_iff_a_signal_qualifies signals candles :
  Result.trades (runBacktest signals candles) = []
  ↔ Forall (λ s, qualifies candles s = false) (acted signals).
Proof.
  unfold runBacktest. cbn [Result.trades].
  pose proof (runLoop_BooksInv signals candles) as Hinv.
  pose proof (loop_idle candles (acted signals) initState eq_refl) as Hloop.
  unfold acted in *.
  change (fold_left (step candles) (take (length signals - LOOKFORWARD) signals) initState)
    with (runLoop signals candles) in Hloop.
  destruct (forallb _ _) eqn:Hall.
  - rewrite Hloop. cbn. split; [intros _|done].
    rewrite forallb_forall in Hall. apply Forall_forall. intros s Hs.
    apply list_elem_of_In, Hall in Hs. by destruct (qualifies candles s).
  - split.
    + intros Hnil. exfalso.
      destruct (forceClose_cases candles _ Hinv) as [[Hp Heq]|(p & lc & Hp & Hlc & Heq)];
        rewrite Heq in Hnil.
      * by destruct Hloop.
      * cbn in Hnil. by destruct (trades (runLoop signals candles)).
    + intros HF. exfalso. apply not_true_iff_false in Hall. apply Hall.
      apply forallb_forall. intros s Hs. apply list_elem_of_In in Hs.
      rewrite Forall_forall in HF. by rewrite (HF s Hs).
Qed.

(** X16.  The loop stops one signal short of the end, so the last signal is
    never handled: replacing it by any other signal leaves ledger and
    statistics as they are. *)
Theorem last_signal_is_ignored signals s s' candles :
  runBacktest (signals ++ [s]) candles = runBacktest (signals ++ [s']) candles.
Proof.
  unfold runBacktest, runLoop. rewrite !length_app. cbn [length].
  assert (LOOKFORWARD = 1%nat) as -> by reflexivity.
  replace (length signals + 1 - 1)%nat with (length signals) by lia.
  by rewrite !take_app_length.
Qed.

(** X17.  On signals numbered in ascending order, as the generator numbers
    them, no trade of the ledger has a negative [holdBars]. *)
Theorem hold_bars_are_not_negative signals candles :
  ascending signals →
  Forall (λ t, (0 <= Trade.holdBars t)%Z) (Result.trades (runBacktest signals candles)).
Proof.
  intros Hasc. unfold runBacktest. cbn [Result.trades].
  pose proof (runLoop_BooksInv signals candles) as Hinv.
  destruct (barState_LedgerInv signals candles (length signals) Hasc) as [b Hled].
  rewrite <- runLoop_barState in Hled.
  assert (Forall (λ t, (0 <= Trade.holdBars t)%Z) (trades (runLoop signals candles))) as Hloop.
  { apply Forall_forall. intros t Ht.
    destruct (inv_trades _ _ _ Hled t Ht) as (Hlt & _ & _ & Hr).
    pose proof (books_trades _ _ Hinv) as Hall. rewrite Forall_forall in Hall.
    destruct (Hall t Ht) as (_ & _ & ->). unfold heldBars.
    destruct (Trade.reason t); lia. }
  destruct (forceClose_cases candles _ Hinv) as [[_ ->]|(p & lc & Hp & Hlc & ->)]; [done|].
  cbn. apply Forall_app. split; [done|]. constructor; [|constructor]. cbn.
  destruct (inv_position _ _ _ Hled p Hp) as (_ & Hlen & _). lia.
Qed.

(** The theorem on the sample series. *)
Lemma hold_bars_are_not_negative_witness :
  Forall (λ t, (0 <= Trade.holdBars t)%Z) (Result.trades (runBacktest exSignals exCandles)).
Proof.
  apply (hold_bars_are_not_negative exSignals exCandles).
  unfold ascending. apply (bool_decide_unpack _). vm_compute. reflexivity.
Defined.

End Books.

Section Entry.

(** *** The entry point *)

Lemma tally_counts signals : ∀ b n r,
  let '(b', n', r') := fold_left tally signals (b, n, r) in
  (b' + n' + r' = b + n + r + length signals)%nat.
Proof.
  induction signals as [|s signals IH]; intros b n r; cbn [fold_left length]; [lia|].
  unfold tally at 2. repeat case_match; simplify_eq.
  - specialize (IH (S b) n r). rewrite H in IH. lia.
  - specialize (IH b n (S r)). rewrite H in IH. lia.
  - specialize (IH b (S n) r). rewrite H in IH. lia.
Qed.

(** X18.  From 50 candles on, all with valid time values, [main] runs the
    simulation on one signal per candle from index 30 on, and the three
    counts of the signal distribution it prints (bullish, neutral, bearish)
    add up to that number.  When the time of the first or of the last candle
    is not a valid time value, [main] throws instead, before it generates a
    signal. *)
Theorem main_reports_every_bar_from_30 candles :
  (50 <= length candles)%nat →
  (Forall (λ bar, validTime (ts bar) = true) candles →
   ∃ signals, main candles = Report signals (runBacktest signals candles)
     ∧ length signals = (length candles - 30)%nat
     ∧ let '(bullish, neutral, bearish) := distribution signals in
       (bullish + neutral + bearish)%nat = (length candles - 30)%nat)
  ∧ (rendersTime candles 0 = false ∨ rendersTime candles (length candles - 1) = false →
     main candles = Thrown).
Proof.
  intros Hlen. split; [|by apply main_throws].
  intros Hvalid. destruct (main_runs candles Hlen Hvalid) as (signals & Hgen & Hmain & _).
  destruct (generateSignals_emits candles) as (signals' & Hgen' & Hall).
  rewrite Hgen in Hgen'. injection Hgen' as <-.
  exists signals. split; [done|].
  assert (length signals = (length candles - 30)%nat) as Hn.
  { apply emitted_idx, (f_equal length) in Hall. by rewrite length_fmap, length_seq in Hall. }
  split; [done|].
  pose proof (tally_counts signals 0 0 0) as Hd. fold (distribution signals) in Hd.
  destruct (distribution signals) as [[b n] r]. lia.
Qed.

(** The theorem on the sample series. *)
Lemma main_reports_every_bar_from_30_witness :
  ∃ signals, main exCandles = Report signals (runBacktest signals exCandles)
    ∧ length signals = (length exCandles - 30)%nat
    ∧ let '(bullish, neutral, bearish) := distribution signals in
      (bullish + neutral + bearish)%nat = (length exCandles - 30)%nat.
Proof.
  apply (main_reports_every_bar_from_30 exCandles); [vm_compute; lia|].
  apply (bool_decide_unpack _). vm_compute. reflexivity.
Defined.

End Entry.

End BacktestMoreFacts.
